(** * Average Calculator HTTP Microservice: the sliding-window core

    A shallow embedding of [main.py]: the per-category window store
    ([number_windows]), the window update ([update_window]), the average
    ([calc_avg]), the request handler ([get_numbers]), the test data
    ([get_test_data]) and the fetch ([get_numbers_from_api]).

    Python integers are unbounded and are modelled as [Z]; Python lists of
    integers as [list Z]; the dictionary [number_windows] as a finite map
    from the four categories to windows.  A Python float is modelled by the
    rational number it stands for: the division of two integers gives the
    binary64 value nearest to the exact quotient, ties to even, and raises
    [OverflowError] when that value is beyond the binary64 range. *)

From Stdlib Require Import QArith Qcanon Qround Qabs Qpower Lqa.
From stdpp Require Import gmap list numbers.

Open Scope Z_scope.

(** ** Constants and the category enumeration *)

Definition MAX_WINDOW_SIZE : nat := 10.

Inductive NumberType : Type :=
  | PRIME
  | FIBONACCI
  | EVEN
  | RANDOM.

#[global] Instance NumberType_eq_dec : EqDecision NumberType.
Proof. solve_decision. Defined.

Definition NumberType_code (t : NumberType) : nat :=
  match t with
  | PRIME => 0%nat
  | FIBONACCI => 1%nat
  | EVEN => 2%nat
  | RANDOM => 3%nat
  end.

Definition NumberType_of_code (n : nat) : option NumberType :=
  match n with
  | 0%nat => Some PRIME
  | 1%nat => Some FIBONACCI
  | 2%nat => Some EVEN
  | 3%nat => Some RANDOM
  | _ => None
  end.

#[global] Program Instance NumberType_countable : Countable NumberType :=
  inj_countable NumberType_code NumberType_of_code _.
Next Obligation. by intros []. Qed.

(** ** The window store *)

Abbreviation window := (list Z) (only parsing).
Abbreviation store := (gmap NumberType (list Z)) (only parsing).

(** [number_windows] as the module initialises it: four empty windows. *)
Definition number_windows : store :=
  <[PRIME := []]> (<[FIBONACCI := []]> (<[EVEN := []]> (<[RANDOM := []]> ∅))).

(** ** Computations over the store that may raise *)

Inductive exn : Type :=
  | KeyError
  | FetchFault
  | OverflowError
  | ZeroDivisionError.

Inductive outcome (A : Type) : Type :=
  | Ok (a : A)
  | Raise (e : exn).
Arguments Ok {A} a.
Arguments Raise {A} e.

(** A computation reads and writes the store; what it wrote before raising
    stays written, as in Python. *)
Definition M (A : Type) : Type := store → outcome A * store.

#[global] Instance M_ret : MRet M := λ A a nw, (Ok a, nw).

#[global] Instance M_bind : MBind M := λ A B f m nw,
  match m nw with
  | (Ok a, nw') => f a nw'
  | (Raise e, nw') => (Raise e, nw')
  end.

Definition lift_outcome {A} (o : outcome A) : M A := λ nw, (o, nw).

(** [try: body except Exception as e: handler]. *)
Definition try_except {A} (body : M A) (handler : exn → M A) : M A := λ nw,
  match body nw with
  | (Ok a, nw') => (Ok a, nw')
  | (Raise e, nw') => handler e nw'
  end.

(** [number_windows[type_key]]: a missing key raises [KeyError]. *)
Definition get_window (type_key : NumberType) : M window := λ nw,
  match nw !! type_key with
  | Some w => (Ok w, nw)
  | None => (Raise KeyError, nw)
  end.

(** [number_windows[type_key] = current]. *)
Definition set_window (type_key : NumberType) (current : window) : M unit :=
  λ nw, (Ok tt, <[type_key := current]> nw).

(** ** [update_window] *)

(** The [for num in new_vals] loop.  [current] is the working copy, which
    the loop only reads; [new_additions] is the list the loop appends to. *)
Fixpoint collect_additions (current : window) (new_vals : list Z)
    (new_additions : list Z) : list Z :=
  match new_vals with
  | [] => new_additions
  | num :: rest =>
      if bool_decide (num ∈ current)
      then collect_additions current rest new_additions
      else collect_additions current rest (new_additions ++ [num])
  end.

(** The slice [l[-n:]] for a positive [n]: the last [n] elements, or all of
    [l] when it is shorter. *)
Definition last_n (n : nat) (l : list Z) : list Z :=
  drop (length l - n) l.

(** Lines 119-130 of [update_window], on the window read from the store:
    the triple [(previous, current, new_additions)]. *)
Definition update_lists (stored : window) (new_vals : list Z)
    : window * window * list Z :=
  let current := stored in
  let previous := current in
  let new_additions := collect_additions current new_vals [] in
  let current := current ++ new_additions in
  let current :=
    if decide (MAX_WINDOW_SIZE < length current)%nat
    then last_n MAX_WINDOW_SIZE current
    else current in
  (previous, current, new_additions).

Definition update_window (type_key : NumberType) (new_vals : list Z)
    : M (window * window * list Z) :=
  stored ← get_window type_key;
  let '(previous, current, new_additions) := update_lists stored new_vals in
  _ ← set_window type_key current;
  mret (previous, current, new_additions).

(** ** [calc_avg] *)

(** Python's [sum]: a left fold from [0]. *)
Definition sum (numbers : list Z) : Z := fold_left Z.add numbers 0.

Definition Z2Qc (z : Z) : Qc := Q2Qc (inject_Z z).

(** The nearest integer, a tie going to the even one. *)
Definition round_half_even (x : Q) : Z :=
  let f := Qfloor x in
  match Qcompare (x - inject_Z f) (1 # 2) with
  | Lt => f
  | Gt => f + 1
  | Eq => if Z.even f then f else f + 1
  end.

(** For a positive [x], the exponent [e] with [2 ^ e <= x < 2 ^ (e + 1)]. *)
Definition Qlog2 (x : Q) : Z :=
  let e0 := Z.log2 (Qnum x) - Z.log2 (Z.pos (Qden x)) in
  if Qle_bool (2 ^ e0) x then e0 else e0 - 1.

(** The exponent of the unit in the last place of the binary64 value of a
    non-zero [x]: 53 significant bits, and no exponent below that of the
    subnormal numbers. *)
Definition ulp_exponent (x : Q) : Z := Z.max (Qlog2 (Qabs x) - 52) (-1074).

(** The number of units in the last place of the rounded value. *)
Definition significand (x : Q) : Z :=
  round_half_even (x / 2 ^ ulp_exponent x)%Q.

(** The binary64 value nearest to [x], ties to even; [None] when it is
    [2 ^ 1024] or more in magnitude, beyond the largest float. *)
Definition binary64_round (x : Q) : option Q :=
  if Qeq_bool x 0 then Some 0%Q
  else
    let r := (inject_Z (significand x) * 2 ^ ulp_exponent x)%Q in
    if Qle_bool (2 ^ 1024) (Qabs r) then None else Some r.

(** [a / b] on two Python integers: the exact quotient correctly rounded
    to a float. *)
Definition true_divide (a b : Z) : outcome Qc :=
  if decide (b = 0) then Raise ZeroDivisionError
  else
    match binary64_round (inject_Z a / inject_Z b) with
    | Some r => Ok (Q2Qc r)
    | None => Raise OverflowError
    end.

Definition calc_avg (numbers : list Z) : outcome Qc :=
  match numbers with
  | [] => Ok 0%Qc
  | _ => true_divide (sum numbers) (Z.of_nat (length numbers))
  end.

(** ** [get_numbers] *)

Record NumberResponse : Type := mkNumberResponse {
  windowPrevState : list Z;
  windowCurrState : list Z;
  numbers : list Z;
  avg : Qc
}.

(** The response both fallback paths build: the stored window as previous
    and current state, nothing added. *)
Definition current_window_response (numberid : NumberType) : M NumberResponse :=
  w ← get_window numberid;
  a ← lift_outcome (calc_avg w);
  mret (mkNumberResponse w w [] a).

(** The handler.  [fetched] is what [await get_numbers_from_api(numberid)]
    did: returned [None], returned a list, or raised. *)
Definition get_numbers (numberid : NumberType)
    (fetched : outcome (option (list Z))) : M NumberResponse :=
  try_except
    (new_numbers ← lift_outcome fetched;
     match new_numbers with
     | None | Some [] => current_window_response numberid
     | Some new_numbers =>
         '(prev, curr, added) ← update_window numberid new_numbers;
         average ← lift_outcome (calc_avg curr);
         mret (mkNumberResponse prev curr added average)
     end)
    (λ e, current_window_response numberid).

(** ** [get_test_data] *)

(** What the random generator chose in one call: the value of
    [random.randint(1, 5)] and the positions [random.sample] picked in the
    population, in the order it returned them. *)
Record draw : Type := mkDraw {
  randint_1_5 : nat;
  sample_positions : list nat
}.

(** [random.randint(1, 5)] is between 1 and 5, ends included;
    [random.sample(population, k)] picks [k] different positions of the
    population. *)
Definition valid_draw (population : list Z) (d : draw) : Prop :=
  (1 ≤ randint_1_5 d ≤ 5)%nat ∧
  length (sample_positions d) = randint_1_5 d ∧
  NoDup (sample_positions d) ∧
  Forall (λ i, (i < length population)%nat) (sample_positions d).

Definition random_sample (population : list Z) (positions : list nat) : list Z :=
  (λ i, default 0 (population !! i)) <$> positions.

(** The population each category samples from; [range(1, 100)] is
    [1, ..., 99]. *)
Definition test_population (number_type : NumberType) : list Z :=
  match number_type with
  | PRIME => [2; 3; 5; 7; 11; 13; 17; 19; 23; 29; 31; 37; 41; 43; 47]
  | FIBONACCI => [1; 2; 3; 5; 8; 13; 21; 34; 55; 89; 144]
  | EVEN => [2; 4; 6; 8; 10; 12; 14; 16; 18; 20; 22; 24]
  | RANDOM => seqZ 1 99
  end.

Definition get_test_data (number_type : NumberType) (d : draw) : list Z :=
  random_sample (test_population number_type) (sample_positions d).

(** ** [get_numbers_from_api] *)

Definition USE_MOCK_DATA : bool := true.

Definition REQUEST_TIMEOUT : Qc := Q2Qc (1 # 2).

(** What [response.json()] gave, as far as the function looks at it: an
    object, with the value under ["numbers"] when the key is there, or a
    value that is not an object, on which [.get] raises.  The value under
    ["numbers"] is taken to be of the type the function declares for its
    result, [Optional[List[int]]]: a list of integers, or [None] for a JSON
    [null].  The function does not check it; a value of another type is not
    represented. *)
Inductive json_data : Type :=
  | JsonObject (numbers_field : option (option (list Z)))
  | JsonOther.

Inductive api_exn : Type :=
  | TimeoutException
  | RequestError
  | OtherException.

(** What the HTTP request did: [client.get] raised, or it returned a
    response after [elapsed] seconds, with a status code and a body that
    parses as JSON or not ([None]: [response.json()] raises). *)
Inductive http_event : Type :=
  | HttpRaised (e : api_exn)
  | HttpResponded (elapsed : Qc) (status_code : Z) (body : option json_data).

(** The inner [try] block, lines 82-101. *)
Definition api_request (ev : http_event) : api_exn + option (list Z) :=
  match ev with
  | HttpRaised e => inl e
  | HttpResponded elapsed status_code body =>
      if decide (REQUEST_TIMEOUT < elapsed)%Qc then inr None
      else if decide (status_code ≠ 200) then inr None
      else
        match body with
        | None => inl OtherException
        | Some JsonOther => inl OtherException
        | Some (JsonObject None) => inr (Some [])
        | Some (JsonObject (Some value)) => inr value
        end
  end.

(** [get_numbers_from_api] for either value of the [USE_MOCK_DATA] flag:
    [d] is what the random generator chose, [ev] what the HTTP request
    did.  Each [except] clause returns [None]. *)
Definition get_numbers_from_api_when (use_mock_data : bool)
    (number_type : NumberType) (d : draw) (ev : http_event)
    : outcome (option (list Z)) :=
  if use_mock_data then Ok (Some (get_test_data number_type d))
  else
    match api_request ev with
    | inr result => Ok result
    | inl TimeoutException => Ok None
    | inl RequestError => Ok None
    | inl OtherException => Ok None
    end.

Definition get_numbers_from_api (number_type : NumberType) (d : draw)
    (ev : http_event) : outcome (option (list Z)) :=
  get_numbers_from_api_when USE_MOCK_DATA number_type d ev.

(** ** Requests one after the other *)

(** One request to the endpoint: the fetch, then the handler. *)
Definition serve_when (use_mock_data : bool) (numberid : NumberType)
    (d : draw) (ev : http_event) : M NumberResponse :=
  get_numbers numberid (get_numbers_from_api_when use_mock_data numberid d ev).

Definition serve (numberid : NumberType) (d : draw) (ev : http_event)
    : M NumberResponse :=
  get_numbers numberid (get_numbers_from_api numberid d ev).

(** The handler run on a sequence of requests, each with the outcome of its
    fetch; the store of one request is the store the next one starts
    from. *)
Fixpoint handle_all (requests : list (NumberType * outcome (option (list Z))))
    (nw : store) : list (outcome NumberResponse) * store :=
  match requests with
  | [] => ([], nw)
  | (numberid, fetched) :: rest =>
      let '(r, nw') := get_numbers numberid fetched nw in
      let '(rs, nw'') := handle_all rest nw' in
      (r :: rs, nw'')
  end.

(** * Properties *)

(** ** Running the store computations *)

Lemma get_window_Some (nw : store) (k : NumberType) (w : window) :
  nw !! k = Some w → get_window k nw = (Ok w, nw).
Proof. intros Hk. unfold get_window. by rewrite Hk. Qed.

Lemma get_window_None (nw : store) (k : NumberType) :
  nw !! k = None → get_window k nw = (Raise KeyError, nw).
Proof. intros Hk. unfold get_window. by rewrite Hk. Qed.

(** With the key present, [update_window] returns the triple of
    [update_lists] and stores its middle component. *)
Lemma update_window_run (nw : store) (k : NumberType) (w : window) (new_vals : list Z) :
  nw !! k = Some w →
  update_window k new_vals nw
  = (Ok (update_lists w new_vals), <[k := (update_lists w new_vals).1.2]> nw).
Proof.
  intros Hk. unfold update_window, mbind, M_bind.
  rewrite (get_window_Some _ _ _ Hk).
  by destruct (update_lists w new_vals) as [[previous current] new_additions].
Qed.

Lemma update_window_missing (nw : store) (k : NumberType) (new_vals : list Z) :
  nw !! k = None → update_window k new_vals nw = (Raise KeyError, nw).
Proof.
  intros Hk. unfold update_window, mbind, M_bind.
  by rewrite (get_window_None _ _ Hk).
Qed.

(** ** The loop of [update_window] *)

(** The loop keeps, in order, the candidates that are not in the working
    copy it was started with. *)
Lemma collect_additions_acc (current new_vals acc : list Z) :
  collect_additions current new_vals acc
  = acc ++ filter (λ num, num ∉ current) new_vals.
Proof.
  revert acc. induction new_vals as [|num rest IH]; intros acc; simpl.
  - by rewrite app_nil_r.
  - case_bool_decide as Hin.
    + rewrite IH. rewrite filter_cons_False; [done | tauto].
    + rewrite IH. rewrite filter_cons_True by done. by rewrite <- app_assoc.
Qed.

Lemma collect_additions_filter (current new_vals : list Z) :
  collect_additions current new_vals [] = filter (λ num, num ∉ current) new_vals.
Proof. apply collect_additions_acc. Qed.

Lemma update_lists_previous (w : window) (new_vals : list Z) :
  (update_lists w new_vals).1.1 = w.
Proof. done. Qed.

Lemma update_lists_added (w : window) (new_vals : list Z) :
  (update_lists w new_vals).2 = filter (λ num, num ∉ w) new_vals.
Proof. apply collect_additions_filter. Qed.

Lemma update_lists_current (w : window) (new_vals : list Z) :
  (update_lists w new_vals).1.2
  = if decide (MAX_WINDOW_SIZE < length (w ++ (update_lists w new_vals).2))%nat
    then last_n MAX_WINDOW_SIZE (w ++ (update_lists w new_vals).2)
    else w ++ (update_lists w new_vals).2.
Proof. done. Qed.

(** What holds of [added] for every window and candidate list. *)
Lemma added_subset (w : window) (new_vals : list Z) (x : Z) :
  x ∈ (update_lists w new_vals).2 → x ∈ new_vals.
Proof. rewrite update_lists_added, list_elem_of_filter. tauto. Qed.

Lemma added_disjoint_previous (w : window) (new_vals : list Z) (x : Z) :
  x ∈ (update_lists w new_vals).2 → x ∉ (update_lists w new_vals).1.1.
Proof. rewrite update_lists_added, list_elem_of_filter. simpl. tauto. Qed.

Lemma added_in_candidate_order (w : window) (new_vals : list Z) :
  (update_lists w new_vals).2 `sublist_of` new_vals.
Proof. rewrite update_lists_added. apply sublist_filter. Qed.

Lemma added_NoDup (w : window) (new_vals : list Z) :
  NoDup new_vals → NoDup (update_lists w new_vals).2.
Proof. rewrite update_lists_added. apply list.NoDup_filter. Qed.

(** ** Truncation to the capacity *)

Lemma last_n_length (n : nat) (l : list Z) :
  length (last_n n l) = (length l `min` n)%nat.
Proof. unfold last_n. rewrite length_drop. lia. Qed.

Lemma last_n_suffix (n : nat) (l : list Z) : last_n n l `suffix_of` l.
Proof. apply suffix_drop. Qed.

Lemma last_n_all (n : nat) (l : list Z) :
  (length l ≤ n)%nat → last_n n l = l.
Proof.
  intros Hle. unfold last_n.
  by replace (length l - n)%nat with 0%nat by lia.
Qed.

(** The elements cut off are the front of the list. *)
Lemma last_n_split (n : nat) (l : list Z) :
  l = take (length l - n) l ++ last_n n l.
Proof. unfold last_n. by rewrite take_drop. Qed.

(** Whatever the branch taken, [current] is the last
    [min capacity (length (previous ++ added))] elements of
    [previous ++ added]. *)
Lemma update_lists_current_last_n (w : window) (new_vals : list Z) :
  (update_lists w new_vals).1.2
  = last_n MAX_WINDOW_SIZE (w ++ (update_lists w new_vals).2).
Proof.
  rewrite update_lists_current. case_decide as Hlen; [done|].
  symmetry. apply last_n_all. lia.
Qed.

Lemma update_lists_current_length (w : window) (new_vals : list Z) :
  length (update_lists w new_vals).1.2
  = ((length w + length (update_lists w new_vals).2) `min` MAX_WINDOW_SIZE)%nat.
Proof.
  rewrite update_lists_current_last_n, last_n_length.
  by rewrite length_app.
Qed.

Lemma update_lists_capacity (w : window) (new_vals : list Z) :
  (length (update_lists w new_vals).1.2 ≤ MAX_WINDOW_SIZE)%nat.
Proof. rewrite update_lists_current_length. lia. Qed.

Lemma update_lists_suffix (w : window) (new_vals : list Z) :
  (update_lists w new_vals).1.2 `suffix_of` (w ++ (update_lists w new_vals).2).
Proof. rewrite update_lists_current_last_n. apply last_n_suffix. Qed.

(** Without a repeated candidate the window stays free of duplicates. *)
Lemma update_lists_NoDup (w : window) (new_vals : list Z) :
  NoDup w → NoDup new_vals → NoDup (update_lists w new_vals).1.2.
Proof.
  intros Hw Hvals.
  assert (NoDup (w ++ (update_lists w new_vals).2)) as Hall.
  { apply list.NoDup_app. split; [done|]. split.
    - intros x Hx Hadd. by apply added_disjoint_previous in Hadd.
    - by apply added_NoDup. }
  destruct (update_lists_suffix w new_vals) as [front Hfront].
  rewrite Hfront in Hall. by apply list.NoDup_app in Hall as (_ & _ & ?).
Qed.

(** ** The store invariant *)

(** Every category has a window and no window is longer than the
    capacity. *)
Definition store_ok (nw : store) : Prop :=
  ∀ k : NumberType, ∃ w : window, nw !! k = Some w ∧ (length w ≤ MAX_WINDOW_SIZE)%nat.

Lemma number_windows_ok : store_ok number_windows.
Proof. intros []; eexists; (split; [reflexivity | simpl; lia]). Qed.

Lemma store_ok_insert (nw : store) (k : NumberType) (w : window) :
  store_ok nw → (length w ≤ MAX_WINDOW_SIZE)%nat → store_ok (<[k := w]> nw).
Proof.
  intros Hok Hlen k'. destruct (decide (k = k')) as [<-|Hne].
  - exists w. by rewrite lookup_insert_eq.
  - rewrite lookup_insert_ne by done. apply Hok.
Qed.

Lemma update_window_store_ok (nw : store) (k : NumberType) (new_vals : list Z) :
  store_ok nw → store_ok (update_window k new_vals nw).2.
Proof.
  intros Hok. destruct (Hok k) as (w & Hk & _).
  rewrite (update_window_run _ _ _ _ Hk). simpl.
  apply store_ok_insert; [done | apply update_lists_capacity].
Qed.

(** ** Rounding to binary64 *)

Section binary64_facts.
Local Open Scope Q_scope.

Lemma round_half_even_cases (x : Q) :
  round_half_even x = Qfloor x ∧ x - inject_Z (Qfloor x) <= 1 # 2 ∨
  round_half_even x = (Qfloor x + 1)%Z ∧ 1 # 2 <= x - inject_Z (Qfloor x).
Proof.
  unfold round_half_even.
  destruct (Qcompare_spec (x - inject_Z (Qfloor x)) (1 # 2)) as [Heq|Hlt|Hgt].
  - destruct (Z.even (Qfloor x)); [left | right]; (split; [done|]); rewrite Heq; lra.
  - left. split; [done|]. lra.
  - right. split; [done|]. lra.
Qed.

Lemma round_half_even_error (x : Q) :
  Qabs (inject_Z (round_half_even x) - x) <= 1 # 2.
Proof.
  pose proof (Qfloor_le x) as Hlo. pose proof (Qlt_floor x) as Hhi.
  rewrite inject_Z_plus in Hhi. change (inject_Z 1) with 1 in Hhi.
  apply Qabs_Qle_condition.
  destruct (round_half_even_cases x) as [[-> Hfrac]|[-> Hfrac]].
  - lra.
  - rewrite inject_Z_plus. change (inject_Z 1) with 1. lra.
Qed.

Lemma round_half_even_Z (z : Z) : round_half_even (inject_Z z) = z.
Proof.
  destruct (round_half_even_cases (inject_Z z)) as [[-> _]|[_ Hfrac]].
  - apply Qfloor_Z.
  - rewrite Qfloor_Z in Hfrac. lra.
Qed.

Lemma round_half_even_ge (x : Q) (z : Z) :
  inject_Z z <= x → (z ≤ round_half_even x)%Z.
Proof.
  intros Hz. apply Qfloor_resp_le in Hz. rewrite Qfloor_Z in Hz.
  destruct (round_half_even_cases x) as [[-> _]|[-> _]]; lia.
Qed.

Lemma round_half_even_le (x : Q) (z : Z) :
  x <= inject_Z z → (round_half_even x ≤ z)%Z.
Proof.
  intros Hz.
  destruct (round_half_even_cases x) as [[-> _]|[-> Hfrac]].
  - apply Qfloor_resp_le in Hz. by rewrite Qfloor_Z in Hz.
  - assert (inject_Z (Qfloor x) < inject_Z z) as Hlt by lra.
    rewrite <- Zlt_Qlt in Hlt. lia.
Qed.


Lemma Qpower2_pos (e : Z) : 0 < 2 ^ e.
Proof. by apply Qpower_0_lt. Qed.

Lemma Qpower2_succ (e : Z) : 2 ^ (e + 1) == 2 * 2 ^ e.
Proof. rewrite Qpower_plus by done. rewrite Qpower_1_r. ring. Qed.

Lemma Qpower2_add (a b : Z) : 2 ^ (a + b) == 2 ^ a * 2 ^ b.
Proof. by apply Qpower_plus. Qed.

Lemma Qpower2_sub (a b : Z) : 2 ^ (a - b) * 2 ^ b == 2 ^ a.
Proof. rewrite <- Qpower2_add. by replace (a - b + b)%Z with a by lia. Qed.

Lemma Qpower2_le (a b : Z) : (a ≤ b)%Z → 2 ^ a <= 2 ^ b.
Proof. intros Hab. by apply Qpower_le_compat_l. Qed.

Lemma Qpower2_lt (a b : Z) : (a < b)%Z → 2 ^ a < 2 ^ b.
Proof. intros Hab. by apply Qpower_lt_compat_l. Qed.

Lemma Qpower2_lt_inv (a b : Z) : 2 ^ a < 2 ^ b → (a < b)%Z.
Proof. intros Hab. by apply (Qpower_lt_compat_l_inv 2). Qed.

Lemma inject_Z_log2 (n : Z) :
  (0 < n)%Z → 2 ^ Z.log2 n <= inject_Z n ∧ inject_Z n < 2 * 2 ^ Z.log2 n.
Proof.
  intros Hn. destruct (Z.log2_spec n Hn) as [Hlo Hhi].
  pose proof (Z.log2_nonneg n) as Hnn.
  rewrite Zle_Qle in Hlo. rewrite Zlt_Qlt in Hhi.
  rewrite Zpower_Qpower in Hlo by done.
  rewrite Zpower_Qpower in Hhi by lia.
  change (inject_Z 2) with 2 in Hlo, Hhi.
  unfold Z.succ in Hhi. rewrite Qpower2_succ in Hhi. done.
Qed.

Lemma Qlog2_spec (x : Q) :
  0 < x → 2 ^ Qlog2 x <= x ∧ x < 2 ^ (Qlog2 x + 1).
Proof.
  intros Hx. unfold Qlog2.
  set (n := Qnum x). set (d := Z.pos (Qden x)).
  set (e0 := (Z.log2 n - Z.log2 d)%Z).
  assert (0 < n)%Z as Hn by (unfold n; destruct x as [xn xd]; unfold Qlt in Hx; simpl in *; lia).
  assert (0 < d)%Z as Hd by done.
  destruct (inject_Z_log2 n Hn) as [Hn1 Hn2].
  destruct (inject_Z_log2 d Hd) as [Hd1 Hd2].
  assert (x * inject_Z d == inject_Z n) as Hxd.
  { unfold n, d. destruct x as [xn xd]. unfold Qeq. simpl. lia. }
  pose proof (Qpower2_sub (Z.log2 n) (Z.log2 d)) as HT. fold e0 in HT.
  pose proof (Qpower2_pos e0) as HTpos.
  pose proof (Qpower2_pos (Z.log2 n)) as HApos.
  pose proof (Qpower2_pos (Z.log2 d)) as HBpos.
  assert (x < 2 * 2 ^ e0) as Hupper by nra.
  assert (2 ^ e0 < 2 * x) as Hlower by nra.
  destruct (Qle_bool (2 ^ e0) x) eqn:Htest.
  - apply Qle_bool_iff in Htest. rewrite Qpower2_succ. split; lra.
  - assert (¬ 2 ^ e0 <= x) as Hnot by (rewrite <- Qle_bool_iff, Htest; done).
    replace (e0 - 1 + 1)%Z with e0 by lia.
    pose proof (Qpower2_succ (e0 - 1)) as Hs.
    replace (e0 - 1 + 1)%Z with e0 in Hs by lia.
    split; lra.
Qed.


Lemma Qdiv_pow2 (x : Q) (u : Z) : x / 2 ^ u * 2 ^ u == x.
Proof. pose proof (Qpower2_pos u). field. lra. Qed.

Lemma binary64_round_nonzero (x : Q) :
  ¬ x == 0 →
  binary64_round x
  = if Qle_bool (2 ^ 1024) (Qabs (inject_Z (significand x) * 2 ^ ulp_exponent x))
    then None
    else Some (inject_Z (significand x) * 2 ^ ulp_exponent x).
Proof.
  intros Hx. unfold binary64_round.
  destruct (Qeq_bool x 0) eqn:Hzero; [|done].
  by apply Qeq_bool_iff in Hzero.
Qed.

Lemma binary64_round_zero (x : Q) : x == 0 → binary64_round x = Some 0.
Proof.
  intros Hx. unfold binary64_round.
  by rewrite (proj2 (Qeq_bool_iff x 0) Hx).
Qed.

Lemma Qabs_pos_nonzero (x : Q) : ¬ x == 0 → 0 < Qabs x.
Proof.
  intros Hx. pose proof (Qabs_nonneg x) as Hnn.
  destruct (Qlt_le_dec 0 (Qabs x)) as [|Hle]; [done|].
  assert (Qabs x <= 0) as H0 by lra.
  apply Qabs_Qle_condition in H0. destruct Hx. lra.
Qed.

(** The significand has at most 53 bits, and the rounded value is within
    half a unit in the last place. *)
Lemma significand_bound (x : Q) :
  ¬ x == 0 → (- 2 ^ 53 ≤ significand x ≤ 2 ^ 53)%Z.
Proof.
  intros Hx. unfold significand.
  set (u := ulp_exponent x). set (e := Qlog2 (Qabs x)).
  destruct (Qlog2_spec (Qabs x) (Qabs_pos_nonzero x Hx)) as [_ Hhi]. fold e in Hhi.
  assert (e + 1 ≤ 53 + u)%Z as Hu by (unfold u, ulp_exponent; fold e; lia).
  pose proof (Qpower2_le _ _ Hu) as Hpow. rewrite (Qpower2_add 53 u) in Hpow.
  pose proof (Qpower2_pos u) as HP.
  pose proof (Qdiv_pow2 x u) as Hy.
  assert (Qabs x < 2 ^ 53 * 2 ^ u) as Habs by lra.
  apply Qabs_Qlt_condition in Habs.
  change (2 ^ 53) with (inject_Z (2 ^ 53)) in Habs.
  split.
  - apply round_half_even_ge. rewrite inject_Z_opp. nra.
  - apply round_half_even_le. nra.
Qed.

Lemma rounded_error (x : Q) :
  Qabs (inject_Z (significand x) * 2 ^ ulp_exponent x - x)
  <= (1 # 2) * 2 ^ ulp_exponent x.
Proof.
  unfold significand. set (u := ulp_exponent x).
  pose proof (round_half_even_error (x / 2 ^ u)) as Herr.
  pose proof (Qpower2_pos u) as HP. pose proof (Qdiv_pow2 x u) as Hy.
  apply Qabs_Qle_condition in Herr. apply Qabs_Qle_condition.
  nra.
Qed.


Lemma Qlog2_lt (x : Q) (b : Z) : 0 < x → x < 2 ^ b → (Qlog2 x < b)%Z.
Proof.
  intros Hpos Hx. destruct (Qlog2_spec x Hpos) as [Hlo _].
  apply Qpower2_lt_inv. lra.
Qed.


(** Within the range: no overflow below [2 ^ 1023], and the result is
    within half a unit in the last place of [x]. *)
Lemma binary64_round_in_range (x : Q) :
  Qabs x < 2 ^ 1023 →
  ∃ r : Q, binary64_round x = Some r ∧
    Qabs (r - x) <= (1 # 2) * 2 ^ ulp_exponent x.
Proof.
  intros Hrange. pose proof (Qpower2_pos (ulp_exponent x)) as HP.
  destruct (Qeq_dec x 0) as [Hzero|Hx].
  - exists 0. split; [by apply binary64_round_zero|].
    apply Qabs_Qle_condition. lra.
  - exists (inject_Z (significand x) * 2 ^ ulp_exponent x).
    split; [|apply rounded_error].
    rewrite (binary64_round_nonzero x Hx).
    destruct (Qle_bool _ _) eqn:Hover; [|done]. exfalso.
    apply Qle_bool_iff in Hover.
    pose proof (Qlog2_lt _ 1023 (Qabs_pos_nonzero x Hx) Hrange) as He.
    assert (53 + ulp_exponent x ≤ 1023)%Z as Hu by (unfold ulp_exponent; lia).
    pose proof (Qpower2_le _ _ Hu) as Hpow. rewrite (Qpower2_add 53) in Hpow.
    pose proof (Qpower2_lt 1023 1024 ltac:(lia)) as Hlt.
    destruct (significand_bound x Hx) as [Hk1 Hk2].
    rewrite Zle_Qle in Hk1, Hk2. rewrite inject_Z_opp in Hk1.
    change (inject_Z (2 ^ 53)) with (2 ^ 53) in Hk1, Hk2.
    rewrite Qabs_Qmult, (Qabs_pos (2 ^ _)) in Hover by lra.
    assert (Qabs (inject_Z (significand x)) <= 2 ^ 53) as Hk
      by (apply Qabs_Qle_condition; lra).
    pose proof (Qabs_nonneg (inject_Z (significand x))).
    nra.
Qed.




Lemma round_half_even_comp (x y : Q) :
  x == y → round_half_even x = round_half_even y.
Proof.
  intros Hxy. unfold round_half_even.
  rewrite (Qfloor_comp x y Hxy).
  by rewrite (Qcompare_comp (x - inject_Z (Qfloor y)) (y - inject_Z (Qfloor y))
                ltac:(by rewrite Hxy) (1 # 2) (1 # 2) ltac:(reflexivity)).
Qed.

(** A value that is a whole number of units in the last place is returned
    as it is. *)
Lemma binary64_round_exact (x : Q) (m : Z) :
  ¬ x == 0 →
  Qabs x < 2 ^ 1023 →
  x == inject_Z m * 2 ^ ulp_exponent x →
  ∃ r : Q, binary64_round x = Some r ∧ r == x.
Proof.
  intros Hx Hrange Hm.
  destruct (binary64_round_in_range x Hrange) as (r & Hr & _).
  exists r. split; [done|].
  rewrite (binary64_round_nonzero x Hx) in Hr.
  destruct (Qle_bool _ _); [done|]. injection Hr as <-.
  assert (significand x = m) as ->; [|by symmetry].
  unfold significand. rewrite <- (round_half_even_Z m).
  apply round_half_even_comp.
  pose proof (Qpower2_pos (ulp_exponent x)) as HP.
  rewrite Hm at 1. field. lra.
Qed.

(** Integers of at most 53 bits are such values. *)
Lemma binary64_round_integer (x : Q) (z : Z) :
  x == inject_Z z →
  (Z.abs z ≤ 2 ^ 53)%Z →
  ∃ r : Q, binary64_round x = Some r ∧ r == x.
Proof.
  intros Hz Hsmall.
  destruct (Qeq_dec x 0) as [Hzero|Hx].
  { exists 0. split; [by apply binary64_round_zero | by symmetry]. }
  assert (Qabs x <= 2 ^ 53) as Habs.
  { rewrite Hz. apply Qabs_Qle_condition.
    change (2 ^ 53) with (inject_Z (2 ^ 53)). rewrite <- inject_Z_opp, <- !Zle_Qle. lia. }
  pose proof (Qpower2_lt 53 1023 ltac:(lia)) as Hlt.
  set (e := Qlog2 (Qabs x)).
  destruct (Qlog2_spec (Qabs x) (Qabs_pos_nonzero x Hx)) as [Hlo Hhi]. fold e in Hlo, Hhi.
  assert (e ≤ 53)%Z as He.
  { assert (e < 54)%Z; [|lia]. apply Qpower2_lt_inv.
    pose proof (Qpower2_lt 53 54 ltac:(lia)). lra. }
  destruct (decide (e ≤ 52)%Z) as [Hnormal|Htop].
  - assert (ulp_exponent x ≤ 0)%Z as Hu by (unfold ulp_exponent; fold e; lia).
    apply (binary64_round_exact x (z * 2 ^ (- ulp_exponent x))); [done | lra |].
    rewrite inject_Z_mult, Zpower_Qpower by lia. change (inject_Z 2) with 2.
    rewrite <- Qmult_assoc, <- Qpower2_add.
    replace (- ulp_exponent x + ulp_exponent x)%Z with 0%Z by lia.
    rewrite Hz. change (2 ^ 0) with 1. ring.
  - assert (e = 53)%Z as He53 by lia.
    assert (ulp_exponent x = 1)%Z as Hu by (unfold ulp_exponent; fold e; lia).
    rewrite He53 in Hlo.
    assert (Z.abs z = 2 ^ 53)%Z as Hzabs.
    { apply Z.le_antisymm; [done|].
      rewrite Hz in Hlo. change (2 ^ 53) with (inject_Z (2 ^ 53)) in Hlo.
      change (Qabs (inject_Z z)) with (inject_Z (Z.abs z)) in Hlo.
      by rewrite <- Zle_Qle in Hlo. }
    apply (binary64_round_exact x (z / 2)); [done | lra |].
    rewrite Hu, Hz. change (2 ^ 1) with (inject_Z 2). rewrite <- inject_Z_mult.
    apply inject_Z_injective.
    assert (z = 2 ^ 53 ∨ z = - 2 ^ 53)%Z as [-> | ->] by lia; reflexivity.
Qed.


(** Rounding does not cross an integer of at most 53 bits. *)
Lemma binary64_round_between (x : Q) (lo hi : Z) :
  inject_Z lo <= x →
  x <= inject_Z hi →
  (Z.abs lo ≤ 2 ^ 53)%Z →
  (Z.abs hi ≤ 2 ^ 53)%Z →
  ∃ r : Q, binary64_round x = Some r ∧ inject_Z lo <= r ∧ r <= inject_Z hi.
Proof.
  intros Hlo Hhi Hlo53 Hhi53.
  destruct (Qeq_dec x 0) as [Hzero|Hx].
  { exists 0. split; [by apply binary64_round_zero|]. split; lra. }
  assert (- 2 ^ 53 <= inject_Z lo ∧ inject_Z hi <= 2 ^ 53) as [Hlo' Hhi'].
  { change (2 ^ 53) with (inject_Z (2 ^ 53)).
    rewrite <- inject_Z_opp, <- !Zle_Qle. lia. }
  assert (Qabs x <= 2 ^ 53) as Habs by (apply Qabs_Qle_condition; lra).
  pose proof (Qpower2_lt 53 1023 ltac:(lia)) as Hlt.
  set (e := Qlog2 (Qabs x)).
  destruct (Qlog2_spec (Qabs x) (Qabs_pos_nonzero x Hx)) as [He1 He2]. fold e in He1, He2.
  assert (e ≤ 53)%Z as He.
  { assert (e < 54)%Z; [|lia]. apply Qpower2_lt_inv.
    pose proof (Qpower2_lt 53 54 ltac:(lia)). lra. }
  destruct (decide (e ≤ 52)%Z) as [Hnormal|Htop].
  - assert (ulp_exponent x ≤ 0)%Z as Hu by (unfold ulp_exponent; fold e; lia).
    destruct (binary64_round_in_range x ltac:(lra)) as (r & Hr & _).
    exists r. split; [done|].
    rewrite (binary64_round_nonzero x Hx) in Hr.
    destruct (Qle_bool _ _); [done|]. injection Hr as <-.
    pose proof (Qpower2_pos (ulp_exponent x)) as HP.
    pose proof (Qdiv_pow2 x (ulp_exponent x)) as Hy.
    assert (∀ z : Z, inject_Z (z * 2 ^ (- ulp_exponent x)) * 2 ^ ulp_exponent x
                     == inject_Z z) as Hscale.
    { intros z. rewrite inject_Z_mult, Zpower_Qpower by lia. change (inject_Z 2) with 2.
      rewrite <- Qmult_assoc, <- Qpower2_add.
      replace (- ulp_exponent x + ulp_exponent x)%Z with 0%Z by lia.
      change (2 ^ 0) with 1. ring. }
    split.
    + rewrite <- (Hscale lo).
      assert (lo * 2 ^ (- ulp_exponent x) ≤ significand x)%Z as Hk.
      { apply round_half_even_ge. pose proof (Hscale lo). nra. }
      rewrite Zle_Qle in Hk. nra.
    + rewrite <- (Hscale hi).
      assert (significand x ≤ hi * 2 ^ (- ulp_exponent x))%Z as Hk.
      { apply round_half_even_le. pose proof (Hscale hi). nra. }
      rewrite Zle_Qle in Hk. nra.
  - assert (e = 53)%Z as He53 by lia. rewrite He53 in He1.
    destruct (Qlt_le_dec x 0) as [Hneg|Hpos].
    + rewrite Qabs_neg in He1 by lra.
      assert (x == inject_Z lo) as Hxlo by lra.
      destruct (binary64_round_integer x lo Hxlo Hlo53) as (r & Hr & Hrx).
      exists r. split; [done|]. rewrite Hrx. split; lra.
    + rewrite Qabs_pos in He1 by lra.
      assert (x == inject_Z hi) as Hxhi by lra.
      destruct (binary64_round_integer x hi Hxhi Hhi53) as (r & Hr & Hrx).
      exists r. split; [done|]. rewrite Hrx. split; lra.
Qed.

End binary64_facts.

(** ** The average *)

Lemma fold_left_add_shift (l : list Z) (a : Z) :
  fold_left Z.add l a = a + fold_left Z.add l 0.
Proof.
  revert a. induction l as [|x l IH]; intros a; simpl; [lia|].
  rewrite (IH (a + x)), (IH (0 + x)). lia.
Qed.

Lemma sum_cons (x : Z) (l : list Z) : sum (x :: l) = x + sum l.
Proof. unfold sum. simpl. apply fold_left_add_shift. Qed.

Lemma sum_between (lo hi : Z) (l : list Z) :
  (∀ x, x ∈ l → lo ≤ x ≤ hi) →
  lo * Z.of_nat (length l) ≤ sum l ≤ hi * Z.of_nat (length l).
Proof.
  induction l as [|x l IH]; intros Hall.
  - unfold sum. simpl. lia.
  - rewrite sum_cons. simpl length.
    assert (lo ≤ x ≤ hi) by (apply Hall; left).
    assert (lo * Z.of_nat (length l) ≤ sum l ≤ hi * Z.of_nat (length l))
      by (apply IH; intros y Hy; apply Hall; by right).
    lia.
Qed.

(** The exact mean of a non-empty list, which [calc_avg] rounds. *)
Definition mean (numbers : list Z) : Q :=
  (inject_Z (sum numbers) / inject_Z (Z.of_nat (length numbers)))%Q.

Lemma calc_avg_nonempty (numbers : list Z) :
  numbers ≠ [] →
  calc_avg numbers
  = match binary64_round (mean numbers) with
    | Some r => Ok (Q2Qc r)
    | None => Raise OverflowError
    end.
Proof.
  intros Hne. destruct numbers as [|x l]; [done|].
  unfold calc_avg, true_divide, mean.
  by rewrite decide_False by (simpl length; lia).
Qed.

(** The guard on the empty list leaves one way to fail. *)
Lemma calc_avg_raises (numbers : list Z) (e : exn) :
  calc_avg numbers = Raise e → e = OverflowError.
Proof.
  destruct numbers as [|x l]; [done|].
  rewrite calc_avg_nonempty by done.
  destruct (binary64_round _); [done|]. by intros [= <-].
Qed.

Lemma mean_between (lo hi : Z) (numbers : list Z) :
  numbers ≠ [] →
  lo * Z.of_nat (length numbers) ≤ sum numbers ≤ hi * Z.of_nat (length numbers) →
  (inject_Z lo <= mean numbers ∧ mean numbers <= inject_Z hi)%Q.
Proof.
  intros Hne [Hlo Hhi]. unfold mean.
  assert (0 < Z.of_nat (length numbers)) as Hlen
    by (destruct numbers; [done | simpl length; lia]).
  set (n := Z.of_nat (length numbers)) in *. set (s := sum numbers) in *.
  rewrite Zlt_Qlt in Hlen. rewrite Zle_Qle, inject_Z_mult in Hlo, Hhi.
  change (inject_Z 0) with 0%Q in Hlen.
  assert (inject_Z s / inject_Z n * inject_Z n == inject_Z s)%Q as Hdiv
    by (field; lra).
  split; nra.
Qed.

(** A list is safe for the average when its values are below [2 ^ 1023] in
    magnitude: then so is the mean of any part of it. *)
Definition float_safe (numbers : list Z) : Prop :=
  ∀ x, x ∈ numbers → Z.abs x < 2 ^ 1023.

Lemma mean_in_range (numbers : list Z) :
  numbers ≠ [] →
  Z.abs (sum numbers) < 2 ^ 1023 * Z.of_nat (length numbers) →
  (Qabs (mean numbers) < 2 ^ 1023)%Q.
Proof.
  intros Hne Hsum. unfold mean.
  assert (0 < Z.of_nat (length numbers)) as Hlen
    by (destruct numbers; [done | simpl length; lia]).
  set (n := Z.of_nat (length numbers)) in *. set (s := sum numbers) in *.
  assert (- (2 ^ 1023 * n) < s ∧ s < 2 ^ 1023 * n) as [Hlo Hhi] by lia.
  rewrite Zlt_Qlt in Hlen, Hlo, Hhi.
  rewrite inject_Z_opp, inject_Z_mult in Hlo. rewrite inject_Z_mult in Hhi.
  change (inject_Z 0) with 0%Q in Hlen.
  change (inject_Z (2 ^ 1023)) with (2 ^ 1023)%Q in Hlo, Hhi.
  assert (inject_Z s / inject_Z n * inject_Z n == inject_Z s)%Q as Hdiv
    by (field; lra).
  apply Qabs_Qlt_condition. split; nra.
Qed.

Lemma float_safe_sum (numbers : list Z) :
  numbers ≠ [] →
  float_safe numbers →
  Z.abs (sum numbers) < 2 ^ 1023 * Z.of_nat (length numbers).
Proof.
  intros Hne Hsafe.
  assert (0 < Z.of_nat (length numbers))
    by (destruct numbers; [done | simpl length; lia]).
  pose proof (sum_between (- (2 ^ 1023 - 1)) (2 ^ 1023 - 1) numbers) as Hsum.
  destruct Hsum as [Hlo Hhi]; [|lia].
  intros x Hx. specialize (Hsafe x Hx). lia.
Qed.

Lemma calc_avg_in_range (numbers : list Z) :
  numbers ≠ [] →
  Z.abs (sum numbers) < 2 ^ 1023 * Z.of_nat (length numbers) →
  ∃ r : Q, binary64_round (mean numbers) = Some r ∧
           calc_avg numbers = Ok (Q2Qc r).
Proof.
  intros Hne Hsum.
  destruct (binary64_round_in_range (mean numbers) (mean_in_range numbers Hne Hsum))
    as (r & Hr & _).
  exists r. split; [done|]. by rewrite calc_avg_nonempty, Hr.
Qed.

Lemma calc_avg_float_safe (numbers : list Z) :
  float_safe numbers → ∃ a : Qc, calc_avg numbers = Ok a.
Proof.
  intros Hsafe. destruct (decide (numbers = [])) as [->|Hne]; [by eexists|].
  destruct (calc_avg_in_range numbers Hne (float_safe_sum numbers Hne Hsafe))
    as (r & _ & Hr).
  by eexists.
Qed.

(** ** Running the handler *)

(** What the handler answers with the three lists in hand: the response
    with the average of the current window, or the failure of that
    average. *)
Definition respond (prev curr added : list Z) : outcome NumberResponse :=
  match calc_avg curr with
  | Ok a => Ok (mkNumberResponse prev curr added a)
  | Raise e => Raise e
  end.

Lemma respond_Ok (prev curr added : list Z) (resp : NumberResponse) :
  respond prev curr added = Ok resp →
  resp = mkNumberResponse prev curr added (avg resp) ∧
  calc_avg curr = Ok (avg resp).
Proof.
  unfold respond. destruct (calc_avg curr) as [a|e]; [|done].
  by intros [= <-].
Qed.

Lemma respond_Raise (prev curr added : list Z) (e : exn) :
  respond prev curr added = Raise e →
  e = OverflowError ∧ calc_avg curr = Raise OverflowError.
Proof.
  unfold respond. destruct (calc_avg curr) as [a|e'] eqn:Havg; [done|].
  intros [= ->]. by rewrite (calc_avg_raises curr e Havg) in *.
Qed.

Lemma respond_float_safe (prev curr added : list Z) :
  float_safe curr →
  ∃ a : Qc, calc_avg curr = Ok a ∧
            respond prev curr added = Ok (mkNumberResponse prev curr added a).
Proof.
  intros Hsafe. destruct (calc_avg_float_safe curr Hsafe) as [a Ha].
  exists a. split; [done|]. unfold respond. by rewrite Ha.
Qed.

Lemma current_window_response_run (nw : store) (k : NumberType) (w : window) :
  nw !! k = Some w →
  current_window_response k nw = (respond w w [], nw).
Proof.
  intros Hk. unfold current_window_response, respond, mbind, M_bind, lift_outcome.
  rewrite (get_window_Some _ _ _ Hk). by destruct (calc_avg w).
Qed.

(** Without data, or after a raised fetch, the body and the [except] branch
    build the same response; when its average fails they fail alike. *)
Lemma get_numbers_no_data (nw : store) (k : NumberType) (w : window)
    (fetched : outcome (option (list Z))) :
  nw !! k = Some w →
  fetched = Ok None ∨ fetched = Ok (Some []) →
  get_numbers k fetched nw = (respond w w [], nw).
Proof.
  intros Hk [-> | ->]; unfold get_numbers, try_except, mbind, M_bind, lift_outcome;
    rewrite (current_window_response_run _ _ _ Hk);
    (destruct (respond w w []) eqn:Hr; [done|]);
    by rewrite (current_window_response_run _ _ _ Hk), Hr.
Qed.

Lemma get_numbers_fetch_raised (nw : store) (k : NumberType) (w : window) (e : exn) :
  nw !! k = Some w →
  get_numbers k (Raise e) nw = (respond w w [], nw).
Proof.
  intros Hk. unfold get_numbers, try_except, mbind, M_bind, lift_outcome.
  by rewrite (current_window_response_run _ _ _ Hk).
Qed.

(** With data the store is written before the average is taken; when the
    average fails, the [except] branch reads the window just stored and
    fails on the same average. *)
Lemma get_numbers_data (nw : store) (k : NumberType) (w : window)
    (num : Z) (rest : list Z) :
  nw !! k = Some w →
  get_numbers k (Ok (Some (num :: rest))) nw
  = (let '(prev, curr, added) := update_lists w (num :: rest) in
     (respond prev curr added, <[k := curr]> nw)).
Proof.
  intros Hk. unfold get_numbers, try_except, mbind, M_bind, lift_outcome.
  rewrite (update_window_run _ _ _ _ Hk).
  destruct (update_lists w (num :: rest)) as [[prev curr] added].
  cbn [fst snd]. unfold respond at 1.
  destruct (calc_avg curr) as [a|e] eqn:Havg; [done|].
  rewrite (current_window_response_run _ _ curr) by apply lookup_insert_eq.
  unfold respond. by rewrite Havg.
Qed.

Lemma get_numbers_missing (nw : store) (k : NumberType)
    (fetched : outcome (option (list Z))) :
  nw !! k = None → get_numbers k fetched nw = (Raise KeyError, nw).
Proof.
  intros Hk.
  assert (current_window_response k nw = (Raise KeyError, nw)) as Hcur.
  { unfold current_window_response, mbind, M_bind.
    by rewrite (get_window_None _ _ Hk). }
  unfold get_numbers, try_except, mbind, M_bind, lift_outcome.
  destruct fetched as [[[|num rest]|]|e]; rewrite ?Hcur; try done.
  by rewrite (update_window_missing _ _ _ Hk), Hcur.
Qed.

(** What one request does on a store that has the key. *)
Lemma get_numbers_cases (nw : store) (k : NumberType) (w : window)
    (fetched : outcome (option (list Z))) :
  nw !! k = Some w →
  (get_numbers k fetched nw = (respond w w [], nw) ∧
   (∀ num rest, fetched ≠ Ok (Some (num :: rest)))) ∨
  (∃ num rest, fetched = Ok (Some (num :: rest)) ∧
     get_numbers k fetched nw
     = (respond w (update_lists w (num :: rest)).1.2 (update_lists w (num :: rest)).2,
        <[k := (update_lists w (num :: rest)).1.2]> nw)).
Proof.
  intros Hk. destruct fetched as [[[|num rest]|]|e].
  - left. split; [|done]. apply get_numbers_no_data; auto.
  - right. exists num, rest. split; [done|].
    rewrite (get_numbers_data _ _ w) by done.
    pose proof (update_lists_previous w (num :: rest)) as Hprev.
    destruct (update_lists w (num :: rest)) as [[prev curr] added].
    cbn [fst snd] in *. by subst prev.
  - left. split; [|done]. apply get_numbers_no_data; auto.
  - left. split; [|done]. by apply get_numbers_fetch_raised.
Qed.

(** However the fetch ends, the handler keeps the store invariant. *)
Lemma get_numbers_store_ok (nw : store) (k : NumberType)
    (fetched : outcome (option (list Z))) :
  store_ok nw → store_ok (get_numbers k fetched nw).2.
Proof.
  intros Hok. destruct (Hok k) as (w & Hk & _).
  destruct (get_numbers_cases nw k w fetched Hk)
    as [[-> _] | (num & rest & -> & ->)]; [done|].
  cbn [snd]. apply store_ok_insert; [done | apply update_lists_capacity].
Qed.

(** * The claims *)

(** ** Dedup (C1, C2) *)

(** C1.  The window is meant to stay free of duplicates, and a value
    occurring twice among the candidates is meant to be appended once.  The
    loop tests each candidate against the window as it was read, not against
    what the same call has already collected: from the initial (empty,
    duplicate-free) Fibonacci window, the candidates [1, 1, 2, 3, 5] are all
    appended, and the stored window holds [1] twice. *)
Theorem update_window_keeps_repeated_candidate :
  number_windows !! FIBONACCI = Some [] ∧
  NoDup ([] : list Z) ∧
  update_window FIBONACCI [1; 1; 2; 3; 5] number_windows
  = (Ok ([], [1; 1; 2; 3; 5], [1; 1; 2; 3; 5]),
     <[FIBONACCI := [1; 1; 2; 3; 5]]> number_windows) ∧
  ¬ NoDup [1; 1; 2; 3; 5].
Proof.
  split; [done|]. split; [constructor|]. split.
  - by rewrite (update_window_run _ _ [] _).
  - intros Hnd. apply list.NoDup_cons in Hnd as [Hnotin _].
    apply Hnotin. left.
Qed.

(** C2.  [added] is meant to hold no value twice.  With the window
    [2, 3, 5] and the candidates [7, 7], neither [7] is in the window, so
    both are recorded: [added] is [7, 7].  (The same missing test as in
    C1.) *)
Theorem update_window_added_repeats_candidate :
  update_window PRIME [7; 7] (<[PRIME := [2; 3; 5]]> number_windows)
  = (Ok ([2; 3; 5], [2; 3; 5; 7; 7], [7; 7]),
     <[PRIME := [2; 3; 5; 7; 7]]> (<[PRIME := [2; 3; 5]]> number_windows)) ∧
  ¬ NoDup [7; 7].
Proof.
  split.
  - by rewrite (update_window_run _ _ [2; 3; 5] _).
  - intros Hnd. apply list.NoDup_cons in Hnd as [Hnotin _].
    apply Hnotin. left.
Qed.

(** ** Capacity and eviction (C3, C4, C10) *)

(** C3.  From a stored window of at most 10 values, [update_window] returns
    a current window of at most 10 values, and that window is the one it
    stores. *)
Theorem update_window_capacity_bound (nw : store) (c : NumberType)
    (w : window) (candidates : list Z) :
  nw !! c = Some w →
  (length w ≤ 10)%nat →
  ∃ (current added : list Z) (nw' : store),
    update_window c candidates nw = (Ok (w, current, added), nw') ∧
    nw' !! c = Some current ∧
    (length current ≤ 10)%nat.
Proof.
  intros Hc _.
  pose proof (update_lists_capacity w candidates) as Hcap.
  rewrite (update_window_run _ _ _ candidates Hc).
  destruct (update_lists w candidates) as [[previous current] added] eqn:Hrun.
  assert (previous = w) as -> by (by rewrite <- (update_lists_previous w candidates), Hrun).
  exists current, added, (<[c := current]> nw). simpl in *.
  split; [done|]. split; [by rewrite lookup_insert_eq | done].
Qed.

Lemma update_window_capacity_bound_witness :
  number_windows !! EVEN = Some [] ∧
  (length ([] : list Z) ≤ 10)%nat ∧
  ∃ (current added : list Z) (nw' : store),
    update_window EVEN [2; 4; 6; 8; 10; 12; 14; 16; 18; 20; 22; 24] number_windows
    = (Ok ([], current, added), nw') ∧
    nw' !! EVEN = Some current ∧
    (length current ≤ 10)%nat.
Proof.
  split; [reflexivity|]. split; [simpl; lia|].
  apply (update_window_capacity_bound number_windows EVEN []); [reflexivity | simpl; lia].
Defined.

(** C4.  When the window with the new values appended is longer than 10,
    [update_window] cuts it at the front: the current window is exactly the
    last 10 values of [previous ++ added], and what was dropped is the front
    of that list.  From the full window [1..10] and the candidates [11, 12]
    it returns previous [1..10], current [3..12] and added [11, 12]. *)
Theorem update_window_evicts_oldest :
  (∀ (nw : store) (c : NumberType) (w : window) (candidates : list Z),
     nw !! c = Some w →
     ∃ (current added : list Z),
       update_window c candidates nw = (Ok (w, current, added), <[c := current]> nw) ∧
       ((10 < length (w ++ added))%nat →
          length current = 10%nat ∧
          current = drop (length (w ++ added) - 10) (w ++ added) ∧
          w ++ added = take (length (w ++ added) - 10) (w ++ added) ++ current)) ∧
  (∀ (nw : store) (c : NumberType),
     nw !! c = Some [1; 2; 3; 4; 5; 6; 7; 8; 9; 10] →
     update_window c [11; 12] nw
     = (Ok ([1; 2; 3; 4; 5; 6; 7; 8; 9; 10],
            [3; 4; 5; 6; 7; 8; 9; 10; 11; 12],
            [11; 12]),
        <[c := [3; 4; 5; 6; 7; 8; 9; 10; 11; 12]]> nw)).
Proof.
  split.
  - intros nw c w candidates Hc.
    rewrite (update_window_run _ _ _ candidates Hc).
    pose proof (update_lists_current_last_n w candidates) as Hcur.
    destruct (update_lists w candidates) as [[previous current] added] eqn:Hrun.
    assert (previous = w) as -> by (by rewrite <- (update_lists_previous w candidates), Hrun).
    simpl in Hcur. exists current, added. split; [done|].
    intros Hlong. subst current. split; [|split].
    + rewrite last_n_length. unfold MAX_WINDOW_SIZE. lia.
    + done.
    + apply last_n_split.
  - intros nw c Hc. by rewrite (update_window_run _ _ _ _ Hc).
Qed.

Lemma update_window_evicts_oldest_witness :
  let full : list Z := [1; 2; 3; 4; 5; 6; 7; 8; 9; 10] in
  let nw : store := <[PRIME := full]> number_windows in
  nw !! PRIME = Some full ∧
  (∃ (current added : list Z),
     update_window PRIME [11; 12] nw
     = (Ok (full, current, added), <[PRIME := current]> nw) ∧
     ((10 < length (full ++ added))%nat →
        length current = 10%nat ∧
        current = drop (length (full ++ added) - 10) (full ++ added) ∧
        full ++ added
        = take (length (full ++ added) - 10) (full ++ added) ++ current)) ∧
  update_window PRIME [11; 12] nw
  = (Ok (full, [3; 4; 5; 6; 7; 8; 9; 10; 11; 12], [11; 12]),
     <[PRIME := [3; 4; 5; 6; 7; 8; 9; 10; 11; 12]]> nw).
Proof.
  intros full nw. split; [reflexivity|]. split.
  - apply (proj1 update_window_evicts_oldest nw PRIME). reflexivity.
  - apply (proj2 update_window_evicts_oldest nw PRIME). reflexivity.
Defined.

(** C10.  From a stored window of at most 10 values, the current window
    returned by [update_window] is the last
    [min 10 (length previous + length added)] values of
    [previous ++ added].  So it is a suffix of that list: an end piece of
    the old window, in its old order, followed by an end piece of [added];
    and either all of [added] is there, or nothing of the old window is. *)
Theorem update_window_current_is_tail (nw : store) (c : NumberType)
    (w : window) (candidates : list Z) :
  nw !! c = Some w →
  (length w ≤ 10)%nat →
  ∃ (current added : list Z) (nw' : store),
    update_window c candidates nw = (Ok (w, current, added), nw') ∧
    length current = (10 `min` (length w + length added))%nat ∧
    current = drop (length (w ++ added) - 10 `min` (length w + length added))
                   (w ++ added) ∧
    current `suffix_of` w ++ added ∧
    ∃ kept_old kept_new : list Z,
      current = kept_old ++ kept_new ∧
      kept_old `suffix_of` w ∧
      kept_new `suffix_of` added ∧
      (kept_new = added ∨ kept_old = []).
Proof.
  intros Hc _.
  rewrite (update_window_run _ _ _ candidates Hc).
  pose proof (update_lists_current_last_n w candidates) as Hcur.
  destruct (update_lists w candidates) as [[previous current] added] eqn:Hrun.
  assert (previous = w) as -> by (by rewrite <- (update_lists_previous w candidates), Hrun).
  simpl in Hcur. exists current, added, (<[c := current]> nw).
  split; [done|]. subst current. unfold last_n, MAX_WINDOW_SIZE.
  split; [|split; [|split]].
  - rewrite length_drop, length_app. lia.
  - f_equal. rewrite length_app. lia.
  - apply suffix_drop.
  - set (n := (length (w ++ added) - 10)%nat).
    exists (drop n w), (drop (n - length w) added).
    split; [apply drop_app|]. split; [apply suffix_drop|]. split; [apply suffix_drop|].
    destruct (decide (n ≤ length w)%nat) as [Hle|Hgt].
    + left. by replace (n - length w)%nat with 0%nat by lia.
    + right. apply drop_ge. lia.
Qed.

Lemma update_window_current_is_tail_witness :
  let w : list Z := [1; 2; 3; 4; 5; 6; 7; 8; 9] in
  let nw : store := <[RANDOM := w]> number_windows in
  nw !! RANDOM = Some w ∧
  (length w ≤ 10)%nat ∧
  ∃ (current added : list Z) (nw' : store),
    update_window RANDOM [9; 40; 41; 40] nw = (Ok (w, current, added), nw') ∧
    length current = (10 `min` (length w + length added))%nat ∧
    current = drop (length (w ++ added) - 10 `min` (length w + length added))
                   (w ++ added) ∧
    current `suffix_of` w ++ added ∧
    ∃ kept_old kept_new : list Z,
      current = kept_old ++ kept_new ∧
      kept_old `suffix_of` w ∧
      kept_new `suffix_of` added ∧
      (kept_new = added ∨ kept_old = []).
Proof.
  intros w nw. split; [reflexivity|]. split; [simpl; lia|].
  apply (update_window_current_is_tail nw RANDOM w); [reflexivity | simpl; lia].
Defined.

(** ** The degraded paths of the handler (C5, C7) *)

(** A window holding the one value [10 ^ 400]: its mean is beyond the range
    of a float. *)
Lemma calc_avg_huge : calc_avg [10 ^ 400] = Raise OverflowError.
Proof. vm_compute. reflexivity. Qed.

(** Whenever the average of the stored window is a float, a request without
    data is answered with that window, unchanged. *)
Lemma get_numbers_no_data_Ok (nw : store) (k : NumberType) (w : window)
    (fetched : outcome (option (list Z))) (a : Qc) :
  nw !! k = Some w →
  calc_avg w = Ok a →
  fetched = Ok None ∨ fetched = Ok (Some []) ∨ (∃ e, fetched = Raise e) →
  get_numbers k fetched nw = (Ok (mkNumberResponse w w [] a), nw).
Proof.
  intros Hk Ha Hfetched.
  assert (respond w w [] = Ok (mkNumberResponse w w [] a)) as <-
    by (unfold respond; by rewrite Ha).
  destruct Hfetched as [-> | [-> | [e ->]]].
  - apply get_numbers_no_data; auto.
  - apply get_numbers_no_data; auto.
  - by apply get_numbers_fetch_raised.
Qed.

(** C5.  A request without data is meant to succeed with the stored window
    as previous and current state.  It computes the average of that window
    inside the [try], and the [except] branch computes the same average
    again: once the stored window is [10 ^ 400] -- left there by a request
    that fetched it -- a request whose fetch returns [None] or the empty list
    raises [OverflowError] instead of answering. *)
Theorem get_numbers_without_data_overflow :
  let poisoned : store := <[EVEN := [10 ^ 400]]> number_windows in
  (get_numbers EVEN (Ok (Some [10 ^ 400])) number_windows).2 = poisoned ∧
  poisoned !! EVEN = Some [10 ^ 400] ∧
  get_numbers EVEN (Ok None) poisoned = (Raise OverflowError, poisoned) ∧
  get_numbers EVEN (Ok (Some [])) poisoned = (Raise OverflowError, poisoned).
Proof.
  intros poisoned.
  assert (poisoned !! EVEN = Some [10 ^ 400]) as Hk by apply lookup_insert_eq.
  assert (respond [10 ^ 400] [10 ^ 400] [] = Raise OverflowError) as Hr
    by (unfold respond; by rewrite calc_avg_huge).
  split; [|split; [done|split]].
  - by rewrite (get_numbers_data _ _ []).
  - rewrite (get_numbers_no_data _ _ _ _ Hk) by auto. by rewrite Hr.
  - rewrite (get_numbers_no_data _ _ _ _ Hk) by auto. by rewrite Hr.
Qed.

(** C7.  The handler is meant never to raise: its [except] branch answers
    with the stored window.  But [update_window] has stored the new window
    by the time the average is taken, and the [except] branch takes the
    average of that same window: when the fetch returns [10 ^ 400], the
    average raises [OverflowError], is caught, and raises again, out of the
    handler.  From then on a fetch that raises is not turned into a response
    either. *)
Theorem get_numbers_raises_overflow :
  let poisoned : store := <[EVEN := [10 ^ 400]]> number_windows in
  get_numbers EVEN (Ok (Some [10 ^ 400])) number_windows
  = (Raise OverflowError, poisoned) ∧
  get_numbers EVEN (Raise FetchFault) poisoned = (Raise OverflowError, poisoned).
Proof.
  intros poisoned.
  assert (poisoned !! EVEN = Some [10 ^ 400]) as Hk by apply lookup_insert_eq.
  assert (∀ prev added, respond prev [10 ^ 400] added = Raise OverflowError) as Hr
    by (intros; unfold respond; by rewrite calc_avg_huge).
  split.
  - rewrite (get_numbers_data _ _ []) by done.
    change (update_lists [] [10 ^ 400]) with ([] : list Z, [10 ^ 400], [10 ^ 400]).
    cbv beta iota. by rewrite Hr.
  - rewrite (get_numbers_fetch_raised _ _ _ _ Hk). by rewrite Hr.
Qed.

(** ** The store around [update_window] (C8, C9) *)

(** C8.  [update_window c] writes no window but that of [c]: every other
    category maps to the same window after the call as before it. *)
Theorem update_window_other_categories (nw : store) (c c' : NumberType)
    (candidates : list Z) :
  c' ≠ c →
  (update_window c candidates nw).2 !! c' = nw !! c'.
Proof.
  intros Hne. destruct (nw !! c) as [w|] eqn:Hc.
  - rewrite (update_window_run _ _ _ candidates Hc). simpl.
    by rewrite lookup_insert_ne.
  - by rewrite (update_window_missing _ _ candidates Hc).
Qed.

Lemma update_window_other_categories_witness :
  let nw : store := <[EVEN := [4; 6; 8]]> number_windows in
  EVEN ≠ PRIME ∧
  (update_window PRIME [2; 3; 5] nw).2 !! EVEN = nw !! EVEN.
Proof.
  intros nw.
  assert (EVEN ≠ PRIME) as Hne by discriminate.
  split; [exact Hne|].
  exact (update_window_other_categories nw PRIME EVEN [2; 3; 5] Hne).
Defined.

(** C9.  On a stored window of at most 10 values (what the store always
    holds), [update_window] with no candidates returns that window as
    previous and as current, an empty [added], and leaves the store -- this
    category's window and all others -- as it was. *)
Theorem update_window_no_candidates (nw : store) (c : NumberType) (w : window) :
  nw !! c = Some w →
  (length w ≤ 10)%nat →
  update_window c [] nw = (Ok (w, w, []), nw).
Proof.
  intros Hc Hlen. rewrite (update_window_run _ _ _ [] Hc).
  unfold update_lists. simpl collect_additions. rewrite app_nil_r.
  rewrite decide_False by (unfold MAX_WINDOW_SIZE; lia). simpl.
  by rewrite insert_id.
Qed.

Lemma update_window_no_candidates_witness :
  let w : list Z := [2; 3; 5] in
  let nw : store := <[PRIME := w]> number_windows in
  nw !! PRIME = Some w ∧
  (length w ≤ 10)%nat ∧
  update_window PRIME [] nw = (Ok (w, w, []), nw).
Proof.
  intros w nw. split; [reflexivity|]. split; [simpl; lia|].
  apply (update_window_no_candidates nw PRIME w); [reflexivity | simpl; lia].
Defined.

(** ** The average (C6) *)








(** ** The scenarios of the specification, run on the handler *)

(** Scenario A: the first request, from the empty window.  The average is
    the float nearest to [10 / 3]. *)
Example scenario_A :
  ∃ resp : NumberResponse,
    get_numbers PRIME (Ok (Some [2; 3; 5])) number_windows
    = (Ok resp, <[PRIME := [2; 3; 5]]> number_windows) ∧
    windowPrevState resp = [] ∧
    windowCurrState resp = [2; 3; 5] ∧
    numbers resp = [2; 3; 5] ∧
    avg resp = Q2Qc (7505999378950827 # 2251799813685248).
Proof.
  destruct (calc_avg [2; 3; 5]) as [a|e] eqn:Havg; [|by vm_compute in Havg].
  exists (mkNumberResponse [] [2; 3; 5] [2; 3; 5] a). split.
  - rewrite (get_numbers_data _ _ []) by done.
    change (update_lists [] [2; 3; 5]) with ([] : list Z, [2; 3; 5], [2; 3; 5]).
    cbv beta iota. unfold respond. by rewrite Havg.
  - repeat split. vm_compute in Havg. injection Havg as <-.
    apply Qc_is_canon. vm_compute. reflexivity.
Qed.

(** Scenario B: a full window and two new values. *)
Example scenario_B :
  let nw : store := <[PRIME := [1; 2; 3; 4; 5; 6; 7; 8; 9; 10]]> number_windows in
  ∃ resp : NumberResponse,
    get_numbers PRIME (Ok (Some [11; 12])) nw
    = (Ok resp, <[PRIME := [3; 4; 5; 6; 7; 8; 9; 10; 11; 12]]> nw) ∧
    windowPrevState resp = [1; 2; 3; 4; 5; 6; 7; 8; 9; 10] ∧
    windowCurrState resp = [3; 4; 5; 6; 7; 8; 9; 10; 11; 12] ∧
    numbers resp = [11; 12] ∧
    avg resp = Q2Qc (15 # 2).
Proof.
  intros nw.
  destruct (calc_avg [3; 4; 5; 6; 7; 8; 9; 10; 11; 12]) as [a|e] eqn:Havg;
    [|by vm_compute in Havg].
  exists (mkNumberResponse [1; 2; 3; 4; 5; 6; 7; 8; 9; 10]
            [3; 4; 5; 6; 7; 8; 9; 10; 11; 12] [11; 12] a). split.
  - rewrite (get_numbers_data _ _ [1; 2; 3; 4; 5; 6; 7; 8; 9; 10]) by done.
    change (update_lists [1; 2; 3; 4; 5; 6; 7; 8; 9; 10] [11; 12])
      with ([1; 2; 3; 4; 5; 6; 7; 8; 9; 10], [3; 4; 5; 6; 7; 8; 9; 10; 11; 12], [11; 12]).
    cbv beta iota. unfold respond. by rewrite Havg.
  - repeat split. vm_compute in Havg. injection Havg as <-.
    apply Qc_is_canon. vm_compute. reflexivity.
Qed.

(** Scenario C: a candidate already in the window, given twice, is skipped
    both times. *)
Example scenario_C :
  update_lists [2; 3; 5] [3; 3; 7] = ([2; 3; 5], [2; 3; 5; 7], [7]).
Proof. reflexivity. Qed.

(** Scenario D: the fetch fails on the window [4, 6, 8]. *)
Example scenario_D :
  let nw : store := <[EVEN := [4; 6; 8]]> number_windows in
  ∃ resp : NumberResponse,
    get_numbers EVEN (Ok None) nw = (Ok resp, nw) ∧
    windowPrevState resp = [4; 6; 8] ∧
    windowCurrState resp = [4; 6; 8] ∧
    numbers resp = [] ∧
    avg resp = Q2Qc 6.
Proof.
  intros nw.
  destruct (calc_avg [4; 6; 8]) as [a|e] eqn:Havg; [|by vm_compute in Havg].
  exists (mkNumberResponse [4; 6; 8] [4; 6; 8] [] a). split.
  - by apply (get_numbers_no_data_Ok nw EVEN [4; 6; 8]); auto.
  - repeat split. vm_compute in Havg. injection Havg as <-.
    apply Qc_is_canon. vm_compute. reflexivity.
Qed.

(** The float nearest to the mean is not always the mean: the average of
    the one value [2 ^ 53 + 1] is [2 ^ 53]. *)
Example calc_avg_rounds :
  ∃ a : Qc, calc_avg [9007199254740993] = Ok a ∧ a = Z2Qc 9007199254740992.
Proof.
  destruct (calc_avg [9007199254740993]) as [a|e] eqn:Havg; [|by vm_compute in Havg].
  exists a. split; [done|]. vm_compute in Havg. injection Havg as <-.
  apply Qc_is_canon. vm_compute. reflexivity.
Qed.

(** * Further properties of the code *)

(** ** [update_window] *)

(** When every candidate is already in a window that fits the capacity, the
    three lists are the window, the window again, and nothing. *)
Lemma update_lists_all_present (w : window) (new_vals : list Z) :
  (∀ x, x ∈ new_vals → x ∈ w) →
  (length w ≤ MAX_WINDOW_SIZE)%nat →
  update_lists w new_vals = (w, w, []).
Proof.
  intros Hall Hlen. unfold update_lists.
  assert (collect_additions w new_vals [] = []) as ->.
  { rewrite collect_additions_filter.
    destruct (filter (λ num, num ∉ w) new_vals) as [|x l] eqn:Hf; [done|].
    assert (x ∈ filter (λ num, num ∉ w) new_vals) as Hx by (rewrite Hf; left).
    apply list_elem_of_filter in Hx as [Hnot Hin]. destruct Hnot. by apply Hall. }
  rewrite app_nil_r. by rewrite decide_False by lia.
Qed.

(** X1.  [added] is exactly the candidates that are not in the window read
    from the store, in the order of the candidate list: nothing else is
    recorded and no such candidate is left out. *)
Theorem update_window_added_exact (nw : store) (c : NumberType) (w : window)
    (candidates : list Z) :
  nw !! c = Some w →
  ∃ (current added : list Z) (nw' : store),
    update_window c candidates nw = (Ok (w, current, added), nw') ∧
    added = filter (λ x, x ∉ w) candidates ∧
    added `sublist_of` candidates ∧
    (∀ x, x ∈ added ↔ x ∈ candidates ∧ x ∉ w).
Proof.
  intros Hc. rewrite (update_window_run _ _ _ candidates Hc).
  pose proof (update_lists_added w candidates) as Hadd.
  destruct (update_lists w candidates) as [[previous current] added] eqn:Hrun.
  assert (previous = w) as -> by (by rewrite <- (update_lists_previous w candidates), Hrun).
  simpl in Hadd. exists current, added, (<[c := current]> nw).
  split; [done|]. split; [done|]. subst added. split.
  - apply sublist_filter.
  - intros x. rewrite list_elem_of_filter. tauto.
Qed.

Lemma update_window_added_exact_witness :
  let w : list Z := [2; 3; 5] in
  let nw : store := <[PRIME := w]> number_windows in
  nw !! PRIME = Some w ∧
  ∃ (current added : list Z) (nw' : store),
    update_window PRIME [3; 7; 5; 11] nw = (Ok (w, current, added), nw') ∧
    added = filter (λ x, x ∉ w) [3; 7; 5; 11] ∧
    added `sublist_of` [3; 7; 5; 11] ∧
    (∀ x, x ∈ added ↔ x ∈ [3; 7; 5; 11] ∧ x ∉ w).
Proof.
  intros w nw. split; [reflexivity|].
  apply (update_window_added_exact nw PRIME w [3; 7; 5; 11]). reflexivity.
Defined.

(** X2.  When neither the stored window nor the candidate list holds a
    value twice, neither does the window that is returned and stored, nor
    [added]. *)
Theorem update_window_distinct_candidates (nw : store) (c : NumberType)
    (w : window) (candidates : list Z) :
  nw !! c = Some w →
  NoDup w →
  NoDup candidates →
  ∃ (current added : list Z) (nw' : store),
    update_window c candidates nw = (Ok (w, current, added), nw') ∧
    nw' !! c = Some current ∧
    NoDup current ∧
    NoDup added.
Proof.
  intros Hc Hw Hcand. rewrite (update_window_run _ _ _ candidates Hc).
  pose proof (update_lists_NoDup w candidates Hw Hcand) as Hcur.
  pose proof (added_NoDup w candidates Hcand) as Hadd.
  destruct (update_lists w candidates) as [[previous current] added] eqn:Hrun.
  assert (previous = w) as -> by (by rewrite <- (update_lists_previous w candidates), Hrun).
  simpl in *. exists current, added, (<[c := current]> nw).
  by rewrite lookup_insert_eq.
Qed.

Lemma update_window_distinct_candidates_witness :
  let w : list Z := [2; 3; 5] in
  let candidates : list Z := [3; 7; 11] in
  let nw : store := <[PRIME := w]> number_windows in
  nw !! PRIME = Some w ∧ NoDup w ∧ NoDup candidates ∧
  ∃ (current added : list Z) (nw' : store),
    update_window PRIME candidates nw = (Ok (w, current, added), nw') ∧
    nw' !! PRIME = Some current ∧
    NoDup current ∧
    NoDup added.
Proof.
  intros w candidates nw.
  assert (NoDup w) as Hw by (apply (bool_decide_unpack _); vm_compute; exact I).
  assert (NoDup candidates) as Hcand by (apply (bool_decide_unpack _); vm_compute; exact I).
  split; [reflexivity|]. split; [exact Hw|]. split; [exact Hcand|].
  apply (update_window_distinct_candidates nw PRIME w candidates); [reflexivity | exact Hw | exact Hcand].
Defined.

(** X3.  When the window and the new values together fit the capacity,
    nothing is evicted: the new window is the old one followed by [added],
    and every candidate is in it. *)
Theorem update_window_no_eviction (nw : store) (c : NumberType) (w : window)
    (candidates : list Z) :
  nw !! c = Some w →
  (length w + length (filter (λ x, x ∉ w) candidates) ≤ 10)%nat →
  ∃ (added : list Z),
    update_window c candidates nw = (Ok (w, w ++ added, added), <[c := w ++ added]> nw) ∧
    (∀ x, x ∈ candidates → x ∈ w ++ added).
Proof.
  intros Hc Hfit. rewrite (update_window_run _ _ _ candidates Hc).
  pose proof (update_lists_added w candidates) as Hadd.
  pose proof (update_lists_current w candidates) as Hcur.
  destruct (update_lists w candidates) as [[previous current] added] eqn:Hrun.
  assert (previous = w) as -> by (by rewrite <- (update_lists_previous w candidates), Hrun).
  simpl in *. exists added.
  rewrite decide_False in Hcur
    by (rewrite length_app, Hadd; unfold MAX_WINDOW_SIZE; lia).
  subst current. split; [done|].
  intros x Hx. apply elem_of_app.
  destruct (decide (x ∈ w)) as [Hin|Hnot]; [by left|].
  right. rewrite Hadd. by apply list_elem_of_filter.
Qed.

Lemma update_window_no_eviction_witness :
  let w : list Z := [2; 3; 5] in
  let candidates : list Z := [3; 7; 11] in
  let nw : store := <[PRIME := w]> number_windows in
  nw !! PRIME = Some w ∧
  (length w + length (filter (λ x, x ∉ w) candidates) ≤ 10)%nat ∧
  ∃ (added : list Z),
    update_window PRIME candidates nw
    = (Ok (w, w ++ added, added), <[PRIME := w ++ added]> nw) ∧
    (∀ x, x ∈ candidates → x ∈ w ++ added).
Proof.
  intros w candidates nw.
  assert (length w + length (filter (λ x, x ∉ w) candidates) ≤ 10)%nat as Hfit
    by (vm_compute; lia).
  split; [reflexivity|]. split; [exact Hfit|].
  apply (update_window_no_eviction nw PRIME w candidates); [reflexivity | exact Hfit].
Defined.

(** X4.  Sending the same candidates again changes nothing, as long as all
    of them are in the window the first call left: the second call returns
    that window as previous and as current, adds nothing, and leaves the
    store as it is. *)
Theorem update_window_repeat (nw nw' : store) (c : NumberType)
    (previous current added candidates : list Z) :
  update_window c candidates nw = (Ok (previous, current, added), nw') →
  (∀ x, x ∈ candidates → x ∈ current) →
  update_window c candidates nw' = (Ok (current, current, []), nw').
Proof.
  intros Hfirst Hall. destruct (nw !! c) as [w|] eqn:Hc.
  - rewrite (update_window_run _ _ _ candidates Hc) in Hfirst.
    pose proof (update_lists_capacity w candidates) as Hcap.
    destruct (update_lists w candidates) as [[previous' current'] added'].
    simpl in *. injection Hfirst as -> -> -> <-.
    rewrite (update_window_run _ _ current candidates) by apply lookup_insert_eq.
    rewrite (update_lists_all_present current candidates Hall Hcap). simpl.
    by rewrite insert_insert_eq.
  - by rewrite (update_window_missing _ _ candidates Hc) in Hfirst.
Qed.

Lemma update_window_repeat_witness :
  let nw : store := <[PRIME := [2; 3; 5]]> number_windows in
  let nw' : store := <[PRIME := [2; 3; 5; 7; 11]]> nw in
  update_window PRIME [3; 7; 11] nw = (Ok ([2; 3; 5], [2; 3; 5; 7; 11], [7; 11]), nw') ∧
  (∀ x, x ∈ [3; 7; 11] → x ∈ [2; 3; 5; 7; 11]) ∧
  update_window PRIME [3; 7; 11] nw' = (Ok ([2; 3; 5; 7; 11], [2; 3; 5; 7; 11], []), nw').
Proof.
  intros nw nw'.
  assert (update_window PRIME [3; 7; 11] nw
          = (Ok ([2; 3; 5], [2; 3; 5; 7; 11], [7; 11]), nw')) as Hfirst
    by (by rewrite (update_window_run _ _ [2; 3; 5] _)).
  assert (∀ x, x ∈ [3; 7; 11] → x ∈ [2; 3; 5; 7; 11]) as Hall.
  { apply (proj1 (list.Forall_forall (λ y : Z, y ∈ [2; 3; 5; 7; 11]) [3; 7; 11])).
    apply (bool_decide_unpack _). vm_compute. exact I. }
  split; [exact Hfirst|]. split; [exact Hall|].
  exact (update_window_repeat nw nw' PRIME _ _ _ _ Hfirst Hall).
Defined.

(** ** [get_numbers] *)

(** X5.  The fallback needs the key as much as the update does: on a store
    without the category's key, [update_window] raises [KeyError], and so
    does the handler, whatever the fetch did; the store is left as it
    was. *)
Theorem get_numbers_missing_key (nw : store) (c : NumberType)
    (fetched : outcome (option (list Z))) (candidates : list Z) :
  nw !! c = None →
  update_window c candidates nw = (Raise KeyError, nw) ∧
  get_numbers c fetched nw = (Raise KeyError, nw).
Proof.
  intros Hc. split.
  - by apply update_window_missing.
  - by apply get_numbers_missing.
Qed.

Lemma get_numbers_missing_key_witness :
  let nw : store := delete EVEN number_windows in
  let fetched : outcome (option (list Z)) := Ok (Some [2; 4]) in
  nw !! EVEN = None ∧
  update_window EVEN [2; 4] nw = (Raise KeyError, nw) ∧
  get_numbers EVEN fetched nw = (Raise KeyError, nw).
Proof.
  intros nw fetched. split; [reflexivity|].
  apply (get_numbers_missing_key nw EVEN fetched [2; 4]). reflexivity.
Defined.

(** X6.  The response tells the store.  A request either answers or raises
    [OverflowError], the latter exactly when the average of the window it
    leaves stored is beyond the float range.  When it answers, the previous
    state it reports is the window the store held before the request, the
    current state is the window the store holds after it, the average is
    that of the current state, and every number reported as added came with
    the fetch and was not in the previous state. *)
Theorem get_numbers_response_matches_store (nw : store) (c : NumberType)
    (fetched : outcome (option (list Z))) :
  is_Some (nw !! c) →
  ∃ (r : outcome NumberResponse) (nw' : store) (curr : list Z),
    get_numbers c fetched nw = (r, nw') ∧
    nw' !! c = Some curr ∧
    match r with
    | Ok resp =>
        nw !! c = Some (windowPrevState resp) ∧
        windowCurrState resp = curr ∧
        calc_avg curr = Ok (avg resp) ∧
        (∀ x, x ∈ numbers resp →
           (x ∉ windowPrevState resp) ∧
           (∃ new_numbers, fetched = Ok (Some new_numbers) ∧ x ∈ new_numbers))
    | Raise e => e = OverflowError ∧ calc_avg curr = Raise OverflowError
    end.
Proof.
  intros [w Hc].
  destruct (get_numbers_cases nw c w fetched Hc)
    as [[-> _] | (num & rest & -> & ->)].
  - exists (respond w w []), nw, w. split; [done|]. split; [done|].
    destruct (respond w w []) as [resp|e] eqn:Hr.
    + apply respond_Ok in Hr as [-> Havg].
      cbn [windowPrevState windowCurrState numbers avg].
      split; [done|]. split; [done|]. split; [done|].
      by intros x ?%elem_of_nil.
    + by apply respond_Raise in Hr.
  - eexists _, _, _. split; [done|]. split; [by rewrite lookup_insert_eq|].
    destruct (respond _ _ _) as [resp|e] eqn:Hr.
    + apply respond_Ok in Hr as [-> Havg].
      cbn [windowPrevState windowCurrState numbers avg].
      split; [done|]. split; [done|]. split; [done|].
      intros x Hx. split.
      * exact (added_disjoint_previous w (num :: rest) x Hx).
      * exists (num :: rest). split; [done|].
        exact (added_subset w (num :: rest) x Hx).
    + by apply respond_Raise in Hr.
Qed.

Lemma get_numbers_response_matches_store_witness :
  let nw : store := <[EVEN := [4; 6; 8]]> number_windows in
  let fetched : outcome (option (list Z)) := Ok (Some [8; 10]) in
  is_Some (nw !! EVEN) ∧
  ∃ (r : outcome NumberResponse) (nw' : store) (curr : list Z),
    get_numbers EVEN fetched nw = (r, nw') ∧
    nw' !! EVEN = Some curr ∧
    match r with
    | Ok resp =>
        nw !! EVEN = Some (windowPrevState resp) ∧
        windowCurrState resp = curr ∧
        calc_avg curr = Ok (avg resp) ∧
        (∀ x, x ∈ numbers resp →
           (x ∉ windowPrevState resp) ∧
           (∃ new_numbers, fetched = Ok (Some new_numbers) ∧ x ∈ new_numbers))
    | Raise e => e = OverflowError ∧ calc_avg curr = Raise OverflowError
    end.
Proof.
  intros nw fetched.
  assert (is_Some (nw !! EVEN)) as Hc by (exists [4; 6; 8]; reflexivity).
  split; [exact Hc|].
  exact (get_numbers_response_matches_store nw EVEN fetched Hc).
Defined.

(** X7.  A request for one category leaves the windows of the other
    categories as they were, whatever the fetch did. *)
Theorem get_numbers_other_categories (nw : store) (c c' : NumberType)
    (fetched : outcome (option (list Z))) :
  c' ≠ c →
  (get_numbers c fetched nw).2 !! c' = nw !! c'.
Proof.
  intros Hne. destruct (nw !! c) as [w|] eqn:Hc.
  - destruct (get_numbers_cases nw c w fetched Hc)
      as [[-> _] | (num & rest & -> & ->)]; [done|].
    cbn [snd]. by rewrite lookup_insert_ne.
  - by rewrite (get_numbers_missing _ _ _ Hc).
Qed.

Lemma get_numbers_other_categories_witness :
  let nw : store := <[EVEN := [4; 6; 8]]> number_windows in
  let fetched : outcome (option (list Z)) := Ok (Some [2; 3; 5]) in
  EVEN ≠ PRIME ∧
  (get_numbers PRIME fetched nw).2 !! EVEN = nw !! EVEN.
Proof.
  intros nw fetched.
  assert (EVEN ≠ PRIME) as Hne by discriminate.
  split; [exact Hne|].
  exact (get_numbers_other_categories nw PRIME EVEN fetched Hne).
Defined.

(** X8.  A fetch that brings only values the window (of at most 10 values)
    already holds is answered exactly like a fetch without data, and leaves
    the store as it was: when the average of the window is a float, previous
    and current state are the stored window and nothing is reported as
    added. *)
Theorem get_numbers_nothing_new (nw : store) (c : NumberType) (w : window)
    (new_numbers : list Z) :
  nw !! c = Some w →
  (length w ≤ 10)%nat →
  (∀ x, x ∈ new_numbers → x ∈ w) →
  get_numbers c (Ok (Some new_numbers)) nw = get_numbers c (Ok None) nw ∧
  (get_numbers c (Ok (Some new_numbers)) nw).2 = nw ∧
  (∀ a : Qc, calc_avg w = Ok a →
     get_numbers c (Ok (Some new_numbers)) nw
     = (Ok (mkNumberResponse w w [] a), nw)).
Proof.
  intros Hc Hlen Hall.
  assert (get_numbers c (Ok (Some new_numbers)) nw = (respond w w [], nw)) as Hrun.
  { destruct new_numbers as [|num rest].
    - apply get_numbers_no_data; auto.
    - rewrite (get_numbers_data _ _ w) by done.
      rewrite (update_lists_all_present w (num :: rest) Hall Hlen).
      by rewrite insert_id. }
  rewrite Hrun. split; [|split; [done|]].
  - symmetry. apply get_numbers_no_data; auto.
  - intros a Ha. unfold respond. by rewrite Ha.
Qed.

Lemma get_numbers_nothing_new_witness :
  let w : list Z := [4; 6; 8] in
  let nw : store := <[EVEN := w]> number_windows in
  nw !! EVEN = Some w ∧
  (length w ≤ 10)%nat ∧
  (∀ x, x ∈ [8; 4; 8] → x ∈ w) ∧
  get_numbers EVEN (Ok (Some [8; 4; 8])) nw = get_numbers EVEN (Ok None) nw ∧
  (get_numbers EVEN (Ok (Some [8; 4; 8])) nw).2 = nw ∧
  (∀ a : Qc, calc_avg w = Ok a →
     get_numbers EVEN (Ok (Some [8; 4; 8])) nw
     = (Ok (mkNumberResponse w w [] a), nw)).
Proof.
  intros w nw.
  assert (∀ x, x ∈ [8; 4; 8] → x ∈ w) as Hall.
  { apply (proj1 (list.Forall_forall (λ y : Z, y ∈ w) [8; 4; 8])).
    apply (bool_decide_unpack _). vm_compute. exact I. }
  split; [reflexivity|]. split; [simpl; lia|]. split; [exact Hall|].
  apply (get_numbers_nothing_new nw EVEN w [8; 4; 8]); [reflexivity | simpl; lia | exact Hall].
Defined.

(** ** Requests one after the other *)

(** A response as the invariant of the store lets it be: both windows
    within the capacity. *)
Definition response_within_capacity (r : outcome NumberResponse) : Prop :=
  ∃ resp : NumberResponse,
    r = Ok resp ∧
    (length (windowPrevState resp) ≤ MAX_WINDOW_SIZE)%nat ∧
    (length (windowCurrState resp) ≤ MAX_WINDOW_SIZE)%nat.

(** Every stored value is below [2 ^ 1023] in magnitude. *)
Definition store_float_safe (nw : store) : Prop :=
  ∀ (k : NumberType) (w : window), nw !! k = Some w → float_safe w.

Lemma number_windows_float_safe : store_float_safe number_windows.
Proof.
  intros k w Hk x Hx. destruct k; injection Hk as <-; by apply elem_of_nil in Hx.
Qed.

Lemma update_lists_current_elem_of (w : window) (new_vals : list Z) (x : Z) :
  x ∈ (update_lists w new_vals).1.2 → x ∈ w ∨ x ∈ new_vals.
Proof.
  intros Hx. destruct (update_lists_suffix w new_vals) as [front Hfront].
  assert (x ∈ w ++ (update_lists w new_vals).2) as Hin
    by (rewrite Hfront; apply elem_of_app; by right).
  apply elem_of_app in Hin as [?|Hadd]; [by left|].
  right. by apply added_subset in Hadd.
Qed.

Lemma update_lists_float_safe (w : window) (new_vals : list Z) :
  float_safe w → float_safe new_vals → float_safe (update_lists w new_vals).1.2.
Proof.
  intros Hw Hnew x Hx.
  apply update_lists_current_elem_of in Hx as [?|?]; [by apply Hw | by apply Hnew].
Qed.

Lemma get_numbers_float_safe (nw : store) (k : NumberType)
    (fetched : outcome (option (list Z))) :
  store_float_safe nw →
  (∀ new_numbers, fetched = Ok (Some new_numbers) → float_safe new_numbers) →
  store_float_safe (get_numbers k fetched nw).2.
Proof.
  intros Hsafe Hfetched. destruct (nw !! k) as [w|] eqn:Hk.
  - destruct (get_numbers_cases nw k w fetched Hk)
      as [[-> _] | (num & rest & -> & ->)]; [done|].
    cbn [snd]. intros k' w' Hk'. destruct (decide (k = k')) as [<-|Hne].
    + rewrite lookup_insert_eq in Hk'. injection Hk' as <-.
      exact (update_lists_float_safe w (num :: rest) (Hsafe k w Hk) (Hfetched _ eq_refl)).
    + rewrite lookup_insert_ne in Hk' by done. by apply (Hsafe k').
  - by rewrite (get_numbers_missing _ _ _ Hk).
Qed.

(** One request answers, within the capacity, or raises [OverflowError];
    it answers when the stored and the fetched values are float-safe. *)
Lemma get_numbers_outcome (nw : store) (k : NumberType)
    (fetched : outcome (option (list Z))) :
  store_ok nw →
  (response_within_capacity (get_numbers k fetched nw).1 ∨
   (get_numbers k fetched nw).1 = Raise OverflowError) ∧
  (store_float_safe nw →
   (∀ new_numbers, fetched = Ok (Some new_numbers) → float_safe new_numbers) →
   response_within_capacity (get_numbers k fetched nw).1).
Proof.
  intros Hok. destruct (Hok k) as (w & Hk & Hlen).
  assert (∀ prev curr added,
            (length prev ≤ MAX_WINDOW_SIZE)%nat →
            (length curr ≤ MAX_WINDOW_SIZE)%nat →
            (response_within_capacity (respond prev curr added) ∨
             respond prev curr added = Raise OverflowError) ∧
            (float_safe curr → response_within_capacity (respond prev curr added)))
    as Hrespond.
  { intros prev curr added Hprev Hcurr. split.
    - destruct (respond prev curr added) as [resp|e] eqn:Hr.
      + left. apply respond_Ok in Hr as [-> _]. by eexists.
      + right. by apply respond_Raise in Hr as [-> _].
    - intros Hsafe.
      destruct (respond_float_safe prev curr added Hsafe) as (a & _ & ->).
      by eexists. }
  destruct (get_numbers_cases nw k w fetched Hk)
    as [[-> _] | (num & rest & -> & ->)]; cbn [fst].
  - destruct (Hrespond w w [] Hlen Hlen) as [Hgen Hsafe].
    split; [done|]. intros Hnw _. apply Hsafe. by apply (Hnw k).
  - destruct (Hrespond w (update_lists w (num :: rest)).1.2
                (update_lists w (num :: rest)).2 Hlen
                (update_lists_capacity w (num :: rest))) as [Hgen Hsafe].
    split; [done|]. intros Hnw Hfetched. apply Hsafe.
    exact (update_lists_float_safe w (num :: rest) (Hnw k w Hk) (Hfetched _ eq_refl)).
Qed.

Lemma handle_all_store_ok (requests : list (NumberType * outcome (option (list Z))))
    (nw : store) :
  store_ok nw →
  store_ok (handle_all requests nw).2 ∧
  length (handle_all requests nw).1 = length requests ∧
  Forall (λ r, response_within_capacity r ∨ r = Raise OverflowError)
         (handle_all requests nw).1.
Proof.
  revert nw. induction requests as [|[numberid fetched] rest IH]; intros nw Hok.
  - by repeat split.
  - simpl.
    pose proof (get_numbers_store_ok nw numberid fetched Hok) as Hok'.
    pose proof (proj1 (get_numbers_outcome nw numberid fetched Hok)) as Hresp.
    destruct (get_numbers numberid fetched nw) as [r nw'].
    destruct (IH nw' Hok') as (Hfinal & Hlen & Hall).
    destruct (handle_all rest nw') as [rs nw''].
    cbn [fst snd] in *. split; [done|]. split; [cbn [length]; by rewrite Hlen|].
    by constructor.
Qed.

Lemma handle_all_answered (requests : list (NumberType * outcome (option (list Z))))
    (nw : store) :
  store_ok nw →
  store_float_safe nw →
  Forall (λ r, ∀ new_numbers, r.2 = Ok (Some new_numbers) → float_safe new_numbers)
         requests →
  Forall response_within_capacity (handle_all requests nw).1.
Proof.
  revert nw. induction requests as [|[numberid fetched] rest IH];
    intros nw Hok Hsafe Hall.
  - by constructor.
  - apply list.Forall_cons in Hall as [Hhead Hrest]. simpl.
    pose proof (get_numbers_store_ok nw numberid fetched Hok) as Hok'.
    pose proof (get_numbers_float_safe nw numberid fetched Hsafe Hhead) as Hsafe'.
    pose proof (proj2 (get_numbers_outcome nw numberid fetched Hok) Hsafe Hhead) as Hresp.
    destruct (get_numbers numberid fetched nw) as [r nw'].
    specialize (IH nw' Hok' Hsafe' Hrest).
    destruct (handle_all rest nw') as [rs nw''].
    cbn [fst snd] in *. by constructor.
Qed.

(** X9.  From the initial store, after any sequence of requests -- for any
    categories, with fetches that returned data, returned none, or raised --
    every category still has its window and no window holds more than 10
    values; every request either was answered with a response whose
    previous and current state hold at most 10 values, or raised
    [OverflowError]; and when every fetched value is below [2 ^ 1023] in
    magnitude, every request was answered. *)
Theorem handle_all_from_start
    (requests : list (NumberType * outcome (option (list Z)))) :
  store_ok (handle_all requests number_windows).2 ∧
  length (handle_all requests number_windows).1 = length requests ∧
  Forall (λ r, response_within_capacity r ∨ r = Raise OverflowError)
         (handle_all requests number_windows).1 ∧
  (Forall (λ r, ∀ new_numbers, r.2 = Ok (Some new_numbers) → float_safe new_numbers)
          requests →
   Forall response_within_capacity (handle_all requests number_windows).1).
Proof.
  destruct (handle_all_store_ok requests number_windows number_windows_ok)
    as (Hok & Hlen & Hall).
  split; [done|]. split; [done|]. split; [done|].
  apply handle_all_answered;
    [apply number_windows_ok | apply number_windows_float_safe].
Qed.

Lemma handle_all_from_start_witness :
  let requests : list (NumberType * outcome (option (list Z))) :=
    [(EVEN, Ok (Some [2; 4])); (EVEN, Ok None); (PRIME, Raise FetchFault)] in
  Forall (λ r, ∀ new_numbers, r.2 = Ok (Some new_numbers) → float_safe new_numbers)
         requests ∧
  Forall response_within_capacity (handle_all requests number_windows).1.
Proof.
  intros requests.
  assert (Forall (λ r, ∀ new_numbers, r.2 = Ok (Some new_numbers) → float_safe new_numbers)
                 requests) as Hsafe.
  { repeat constructor; intros new_numbers Hfetched; try discriminate Hfetched.
    injection Hfetched as <-.
    assert (Forall (λ x : Z, Z.abs x < 2 ^ 1023) [2; 4]) as Hall
      by (apply (bool_decide_unpack _); vm_compute; exact I).
    exact (proj1 (list.Forall_forall _ _) Hall). }
  split; [exact Hsafe|].
  exact (proj2 (proj2 (proj2 (handle_all_from_start requests))) Hsafe).
Defined.

(** ** [calc_avg] between the smallest and the largest value *)

(** X10.  When the values of a non-empty window all lie between two integers
    of at most 53 bits, [calc_avg] returns a float, and that float lies
    between the two: rounding takes the average neither below the smallest
    value nor above the largest, and the average of equal values is that
    value. *)
Theorem calc_avg_between (lo hi : Z) (values : list Z) :
  values ≠ [] →
  (∀ x, x ∈ values → lo ≤ x ≤ hi) →
  Z.abs lo ≤ 2 ^ 53 →
  Z.abs hi ≤ 2 ^ 53 →
  ∃ a : Qc, calc_avg values = Ok a ∧ (Z2Qc lo ≤ a)%Qc ∧ (a ≤ Z2Qc hi)%Qc.
Proof.
  intros Hne Hall Hlo53 Hhi53.
  destruct (mean_between lo hi values Hne (sum_between lo hi values Hall))
    as [Hlo Hhi].
  destruct (binary64_round_between (mean values) lo hi Hlo Hhi Hlo53 Hhi53)
    as (r & Hr & Hr1 & Hr2).
  exists (Q2Qc r). split; [by rewrite calc_avg_nonempty, Hr|].
  unfold Qcle, Z2Qc.
  change (this (Q2Qc r)) with (Qred r).
  change (this (Q2Qc (inject_Z lo))) with (Qred (inject_Z lo)).
  change (this (Q2Qc (inject_Z hi))) with (Qred (inject_Z hi)).
  by rewrite !Qred_correct.
Qed.

Lemma calc_avg_between_witness :
  let values : list Z := [4; 6; 9] in
  values ≠ [] ∧
  (∀ x, x ∈ values → 4 ≤ x ≤ 9) ∧
  Z.abs 4 ≤ 2 ^ 53 ∧
  Z.abs 9 ≤ 2 ^ 53 ∧
  ∃ a : Qc, calc_avg values = Ok a ∧ (Z2Qc 4 ≤ a)%Qc ∧ (a ≤ Z2Qc 9)%Qc.
Proof.
  intros values.
  assert (values ≠ []) as Hne by discriminate.
  assert (∀ x, x ∈ values → 4 ≤ x ≤ 9) as Hall.
  { apply (proj1 (list.Forall_forall (λ y : Z, 4 ≤ y ≤ 9) values)).
    apply (bool_decide_unpack _). vm_compute. exact I. }
  assert (Z.abs 4 ≤ 2 ^ 53) as Hlo by (vm_compute; discriminate).
  assert (Z.abs 9 ≤ 2 ^ 53) as Hhi by (vm_compute; discriminate).
  split; [exact Hne|]. split; [exact Hall|]. split; [exact Hlo|]. split; [exact Hhi|].
  exact (calc_avg_between 4 9 values Hne Hall Hlo Hhi).
Defined.

(** ** [get_test_data] *)

Lemma test_population_NoDup (number_type : NumberType) :
  NoDup (test_population number_type).
Proof.
  destruct number_type; apply (bool_decide_unpack _); vm_compute; exact I.
Qed.

Lemma test_population_range (number_type : NumberType) (x : Z) :
  x ∈ test_population number_type → 1 ≤ x ≤ 144.
Proof.
  revert x. apply list.Forall_forall.
  apply (bool_decide_unpack _). destruct number_type; vm_compute; exact I.
Qed.

Lemma random_sample_elem_of (population : list Z) (positions : list nat) (x : Z) :
  Forall (λ i, (i < length population)%nat) positions →
  x ∈ random_sample population positions → x ∈ population.
Proof.
  intros Hrange Hx. unfold random_sample in Hx.
  apply list_elem_of_fmap in Hx as (i & -> & Hi).
  rewrite list.Forall_forall in Hrange.
  destruct (lookup_lt_is_Some_2 population i (Hrange i Hi)) as [y Hy].
  rewrite Hy. simpl. by apply list_elem_of_lookup_2 in Hy.
Qed.

Lemma random_sample_NoDup (population : list Z) (positions : list nat) :
  NoDup population →
  NoDup positions →
  Forall (λ i, (i < length population)%nat) positions →
  NoDup (random_sample population positions).
Proof.
  intros Hpop Hpos Hrange. unfold random_sample.
  apply NoDup_fmap_2_strong; [|done].
  rewrite list.Forall_forall in Hrange.
  intros i j Hi Hj Heq.
  destruct (lookup_lt_is_Some_2 population i (Hrange i Hi)) as [x Hx].
  destruct (lookup_lt_is_Some_2 population j (Hrange j Hj)) as [y Hy].
  rewrite Hx, Hy in Heq. simpl in Heq. subst y.
  by apply (NoDup_lookup population i j x).
Qed.

Lemma get_test_data_distinct (number_type : NumberType) (d : draw) :
  valid_draw (test_population number_type) d →
  (1 ≤ length (get_test_data number_type d))%nat ∧
  NoDup (get_test_data number_type d).
Proof.
  intros (Hk & Hlen & Hnodup & Hrange). unfold get_test_data. split.
  - unfold random_sample. rewrite length_fmap, Hlen. lia.
  - apply random_sample_NoDup; [apply test_population_NoDup | done | done].
Qed.

(** X11.  Whatever the random generator chooses, the test data of a
    category is between one and five values, all different, all taken from
    the category's population, and so all between 1 and 144. *)
Theorem get_test_data_sample (number_type : NumberType) (d : draw) :
  valid_draw (test_population number_type) d →
  (1 ≤ length (get_test_data number_type d) ≤ 5)%nat ∧
  NoDup (get_test_data number_type d) ∧
  (∀ x, x ∈ get_test_data number_type d →
     x ∈ test_population number_type ∧ 1 ≤ x ≤ 144).
Proof.
  intros (Hk & Hlen & Hnodup & Hrange). unfold get_test_data.
  split; [|split].
  - unfold random_sample. rewrite length_fmap, Hlen. lia.
  - apply random_sample_NoDup; [apply test_population_NoDup | done | done].
  - intros x Hx.
    assert (x ∈ test_population number_type) as Hin
      by (by apply (random_sample_elem_of _ (sample_positions d))).
    split; [done|]. by apply (test_population_range number_type).
Qed.

Lemma get_test_data_sample_witness :
  let d : draw := mkDraw 3 [4%nat; 0%nat; 10%nat] in
  valid_draw (test_population FIBONACCI) d ∧
  get_test_data FIBONACCI d = [8; 1; 144] ∧
  (1 ≤ length (get_test_data FIBONACCI d) ≤ 5)%nat ∧
  NoDup (get_test_data FIBONACCI d) ∧
  (∀ x, x ∈ get_test_data FIBONACCI d →
     x ∈ test_population FIBONACCI ∧ 1 ≤ x ≤ 144).
Proof.
  intros d.
  assert (valid_draw (test_population FIBONACCI) d) as Hvalid.
  { split; [simpl; lia|]. split; [reflexivity|]. split.
    - apply (bool_decide_unpack _). vm_compute. exact I.
    - apply (bool_decide_unpack _). vm_compute. exact I. }
  split; [exact Hvalid|]. split; [reflexivity|].
  exact (get_test_data_sample FIBONACCI d Hvalid).
Defined.

(** ** Requests served from the test data *)

(** No window of the store holds a value twice. *)
Definition store_nodup (nw : store) : Prop :=
  ∀ (k : NumberType) (w : window), nw !! k = Some w → NoDup w.

Lemma number_windows_nodup : store_nodup number_windows.
Proof.
  intros k w Hk. destruct k; injection Hk as <-; constructor.
Qed.

Lemma update_lists_nonempty (w : window) (new_vals : list Z) :
  new_vals ≠ [] → (update_lists w new_vals).1.2 ≠ [].
Proof.
  intros Hne Hempty. apply (f_equal length) in Hempty.
  rewrite update_lists_current_length in Hempty.
  change (length (@nil Z)) with 0%nat in Hempty.
  assert (length w = 0%nat ∧ length (update_lists w new_vals).2 = 0%nat) as [Hw Hadd]
    by (unfold MAX_WINDOW_SIZE in Hempty; lia).
  apply nil_length_inv in Hw. subst w.
  destruct new_vals as [|x l]; [done|].
  assert (x ∈ (update_lists [] (x :: l)).2) as Hx.
  { rewrite update_lists_added. apply list_elem_of_filter. split.
    - apply not_elem_of_nil.
    - left. }
  apply nil_length_inv in Hadd. rewrite Hadd in Hx. by apply elem_of_nil in Hx.
Qed.

Lemma get_numbers_store_nodup (nw : store) (k : NumberType)
    (fetched : outcome (option (list Z))) :
  store_nodup nw →
  (∀ new_numbers, fetched = Ok (Some new_numbers) → NoDup new_numbers) →
  store_nodup (get_numbers k fetched nw).2.
Proof.
  intros Hnd Hfetched. destruct (nw !! k) as [w|] eqn:Hk.
  - destruct (get_numbers_cases nw k w fetched Hk)
      as [[-> _] | (num & rest & -> & ->)]; [done|].
    cbn [snd]. intros k' w' Hk'. destruct (decide (k = k')) as [<-|Hne].
    + rewrite lookup_insert_eq in Hk'. injection Hk' as <-.
      exact (update_lists_NoDup w (num :: rest) (Hnd k w Hk) (Hfetched _ eq_refl)).
    + rewrite lookup_insert_ne in Hk' by done. by apply (Hnd k').
  - by rewrite (get_numbers_missing _ _ _ Hk).
Qed.

Lemma get_test_data_float_safe (number_type : NumberType) (d : draw) :
  valid_draw (test_population number_type) d →
  float_safe (get_test_data number_type d).
Proof.
  intros (_ & _ & _ & Hrange) x Hx.
  apply (random_sample_elem_of _ _ _ Hrange) in Hx.
  apply test_population_range in Hx.
  assert (144 < 2 ^ 1023) by (vm_compute; reflexivity). lia.
Qed.

(** X12.  As the module is configured ([USE_MOCK_DATA] is [True]) the fetch
    is the test data, whatever the HTTP service would do.  On a store whose
    windows are within the capacity, free of duplicates and hold values
    below [2 ^ 1023] in magnitude -- as the initial store is -- such a
    request never takes a fallback path and never raises: it is answered
    with a non-empty current window, and it keeps the three properties of
    the store. *)
Theorem serve_test_data (nw : store) (c : NumberType) (d : draw) (ev : http_event) :
  store_ok nw →
  store_nodup nw →
  store_float_safe nw →
  valid_draw (test_population c) d →
  ∃ (resp : NumberResponse) (nw' : store),
    serve c d ev nw = (Ok resp, nw') ∧
    get_numbers_from_api c d ev = Ok (Some (get_test_data c d)) ∧
    windowCurrState resp ≠ [] ∧
    NoDup (windowCurrState resp) ∧
    numbers resp = filter (λ x, x ∉ windowPrevState resp) (get_test_data c d) ∧
    store_ok nw' ∧
    store_nodup nw' ∧
    store_float_safe nw'.
Proof.
  intros Hok Hnd Hsafe Hvalid.
  destruct (get_test_data_distinct c d Hvalid) as (Hlen & Hdistinct).
  pose proof (get_test_data_float_safe c d Hvalid) as Hdata_safe.
  destruct (Hok c) as (w & Hc & _).
  pose proof (get_numbers_store_ok nw c (get_numbers_from_api c d ev) Hok) as Hok'.
  assert (store_nodup (get_numbers c (get_numbers_from_api c d ev) nw).2) as Hnd'.
  { apply get_numbers_store_nodup; [done|].
    intros new_numbers Hfetched. by injection Hfetched as <-. }
  assert (store_float_safe (get_numbers c (get_numbers_from_api c d ev) nw).2) as Hsafe'.
  { apply get_numbers_float_safe; [done|].
    intros new_numbers Hfetched. by injection Hfetched as <-. }
  unfold serve. revert Hok' Hnd' Hsafe'.
  unfold get_numbers_from_api, get_numbers_from_api_when, USE_MOCK_DATA.
  destruct (get_test_data c d) as [|num rest] eqn:Hdata; [simpl in Hlen; lia|].
  rewrite (get_numbers_data _ _ w) by done.
  pose proof (update_lists_previous w (num :: rest)) as Hprev.
  pose proof (update_lists_added w (num :: rest)) as Hadded.
  pose proof (update_lists_nonempty w (num :: rest)) as Hnonempty.
  pose proof (update_lists_NoDup w (num :: rest) (Hnd c w Hc) Hdistinct) as Hcur.
  pose proof (update_lists_float_safe w (num :: rest) (Hsafe c w Hc) Hdata_safe)
    as Hcur_safe.
  destruct (update_lists w (num :: rest)) as [[prev curr] added].
  cbn [fst snd] in *. subst prev. intros Hok' Hnd' Hsafe'.
  destruct (respond_float_safe w curr added Hcur_safe) as (a & _ & ->).
  eexists _, _. split; [done|].
  cbn [windowPrevState windowCurrState numbers].
  split; [done|]. split; [by apply Hnonempty|]. by repeat split.
Qed.

Lemma serve_test_data_witness :
  let d : draw := mkDraw 3 [4%nat; 0%nat; 10%nat] in
  let ev : http_event := HttpRaised TimeoutException in
  store_ok number_windows ∧
  store_nodup number_windows ∧
  store_float_safe number_windows ∧
  valid_draw (test_population FIBONACCI) d ∧
  ∃ (resp : NumberResponse) (nw' : store),
    serve FIBONACCI d ev number_windows = (Ok resp, nw') ∧
    get_numbers_from_api FIBONACCI d ev = Ok (Some (get_test_data FIBONACCI d)) ∧
    windowCurrState resp ≠ [] ∧
    NoDup (windowCurrState resp) ∧
    numbers resp = filter (λ x, x ∉ windowPrevState resp) (get_test_data FIBONACCI d) ∧
    store_ok nw' ∧
    store_nodup nw' ∧
    store_float_safe nw'.
Proof.
  intros d ev.
  assert (store_ok number_windows) as Hok
    by (intros []; eexists; (split; [reflexivity | simpl; lia])).
  assert (store_nodup number_windows) as Hnd
    by (intros k w Hk; destruct k; injection Hk as <-; constructor).
  assert (store_float_safe number_windows) as Hsafe
    by (intros k w Hk x Hx; destruct k; injection Hk as <-; by apply elem_of_nil in Hx).
  assert (valid_draw (test_population FIBONACCI) d) as Hvalid.
  { split; [simpl; lia|]. split; [reflexivity|]. split.
    - apply (bool_decide_unpack _). vm_compute. exact I.
    - apply (bool_decide_unpack _). vm_compute. exact I. }
  split; [exact Hok|]. split; [exact Hnd|]. split; [exact Hsafe|].
  split; [exact Hvalid|].
  exact (serve_test_data number_windows FIBONACCI d ev Hok Hnd Hsafe Hvalid).
Defined.

(** The requests of a run, each with what the random generator chose and
    what the HTTP service would have done, as inputs of [handle_all]. *)
Definition fetch_all (requests : list (NumberType * draw * http_event))
    : list (NumberType * outcome (option (list Z))) :=
  (λ r, (r.1.1, get_numbers_from_api r.1.1 r.1.2 r.2)) <$> requests.

Lemma handle_all_store_nodup
    (requests : list (NumberType * outcome (option (list Z)))) (nw : store) :
  store_nodup nw →
  Forall (λ r, ∀ new_numbers, r.2 = Ok (Some new_numbers) → NoDup new_numbers)
         requests →
  store_nodup (handle_all requests nw).2.
Proof.
  revert nw. induction requests as [|[numberid fetched] rest IH]; intros nw Hnd Hall.
  - done.
  - apply list.Forall_cons in Hall as [Hhead Hrest]. simpl.
    pose proof (get_numbers_store_nodup nw numberid fetched Hnd Hhead) as Hnd'.
    destruct (get_numbers numberid fetched nw) as [r nw'].
    specialize (IH nw' Hnd' Hrest).
    by destruct (handle_all rest nw') as [rs nw''].
Qed.

(** X13.  Served from the test data, the store never comes to hold a value
    twice in a window: from the initial store, after any sequence of
    requests, every window is free of duplicates and within the
    capacity. *)
Theorem handle_all_test_data_distinct
    (requests : list (NumberType * draw * http_event)) :
  Forall (λ r, valid_draw (test_population r.1.1) r.1.2) requests →
  store_nodup (handle_all (fetch_all requests) number_windows).2 ∧
  store_ok (handle_all (fetch_all requests) number_windows).2.
Proof.
  intros Hvalid. split.
  - apply handle_all_store_nodup; [apply number_windows_nodup|].
    unfold fetch_all. apply Forall_fmap.
    eapply List.Forall_impl; [|exact Hvalid].
    intros [[c d] ev] Hd new_numbers Hfetched. simpl in *.
    unfold get_numbers_from_api, get_numbers_from_api_when, USE_MOCK_DATA in Hfetched.
    injection Hfetched as <-.
    by destruct (get_test_data_distinct c d Hd) as (_ & ?).
  - apply handle_all_store_ok, number_windows_ok.
Qed.

Lemma handle_all_test_data_distinct_witness :
  let requests : list (NumberType * draw * http_event) :=
    [(FIBONACCI, mkDraw 2 [0%nat; 1%nat], HttpRaised TimeoutException);
     (FIBONACCI, mkDraw 2 [1%nat; 2%nat], HttpRaised RequestError)] in
  Forall (λ r, valid_draw (test_population r.1.1) r.1.2) requests ∧
  store_nodup (handle_all (fetch_all requests) number_windows).2 ∧
  store_ok (handle_all (fetch_all requests) number_windows).2.
Proof.
  intros requests.
  assert (Forall (λ r, valid_draw (test_population r.1.1) r.1.2) requests) as Hvalid.
  { repeat constructor; simpl; try lia;
      apply (bool_decide_unpack _); vm_compute; exact I. }
  split; [exact Hvalid|].
  exact (handle_all_test_data_distinct requests Hvalid).
Defined.

(** ** [get_numbers_from_api] over HTTP *)

(** With the test data switched off, a non-empty list comes back only from
    a reply within the timeout, with status 200 and that list under
    ["numbers"]. *)
Lemma api_live_data (c : NumberType) (d : draw) (ev : http_event)
    (new_numbers : list Z) :
  get_numbers_from_api_when false c d ev = Ok (Some new_numbers) →
  ∃ elapsed : Qc,
    (elapsed ≤ REQUEST_TIMEOUT)%Qc ∧
    (ev = HttpResponded elapsed 200 (Some (JsonObject (Some (Some new_numbers)))) ∨
     (new_numbers = [] ∧ ev = HttpResponded elapsed 200 (Some (JsonObject None)))).
Proof.
  unfold get_numbers_from_api_when, api_request.
  destruct ev as [[]|elapsed status_code body]; try done.
  destruct (decide (REQUEST_TIMEOUT < elapsed)%Qc) as [Hlate|Hintime]; [done|].
  destruct (decide (status_code ≠ 200)) as [Hbad|Hgood]; [done|].
  assert (status_code = 200) as -> by (destruct (decide (status_code = 200)); done).
  apply Qcnot_lt_le in Hintime.
  destruct body as [[[[value|]|]|]|]; try done.
  - intros [= ->]. exists elapsed. split; [done|]. by left.
  - intros [= <-]. exists elapsed. split; [done|]. by right.
Qed.

(** X14.  Over HTTP the fetch never raises: a timeout, a request error, any
    other exception, a late reply, a status other than 200, a body that is
    not JSON or not an object all give [None].  It returns a list exactly
    when the reply came within the timeout with status 200 and a JSON
    object: the list under ["numbers"], or the empty list when the object
    has no such key. *)
Theorem get_numbers_from_api_over_http (c : NumberType) (d : draw) (ev : http_event) :
  (∃ result : option (list Z), get_numbers_from_api_when false c d ev = Ok result) ∧
  (∀ new_numbers : list Z,
     get_numbers_from_api_when false c d ev = Ok (Some new_numbers) ↔
     ∃ elapsed : Qc,
       (elapsed ≤ REQUEST_TIMEOUT)%Qc ∧
       (ev = HttpResponded elapsed 200 (Some (JsonObject (Some (Some new_numbers)))) ∨
        (new_numbers = [] ∧ ev = HttpResponded elapsed 200 (Some (JsonObject None))))).
Proof.
  split.
  - unfold get_numbers_from_api_when. destruct (api_request ev) as [[]|result]; eauto.
  - intros new_numbers. split; [apply api_live_data|].
    intros (elapsed & Hintime & [-> | [-> ->]]);
      unfold get_numbers_from_api_when, api_request;
      (rewrite decide_False by (by apply Qcle_not_lt));
      by rewrite decide_False by (intros Hne; by apply Hne).
Qed.

Lemma get_numbers_from_api_over_http_witness :
  let ev : http_event :=
    HttpResponded (Q2Qc (1 # 4)) 200 (Some (JsonObject (Some (Some [2; 4])))) in
  let d : draw := mkDraw 1 [0%nat] in
  (∃ elapsed : Qc,
     (elapsed ≤ REQUEST_TIMEOUT)%Qc ∧
     (ev = HttpResponded elapsed 200 (Some (JsonObject (Some (Some [2; 4])))) ∨
      ([2; 4] = [] ∧ ev = HttpResponded elapsed 200 (Some (JsonObject None))))) ∧
  get_numbers_from_api_when false EVEN d ev = Ok (Some [2; 4]).
Proof.
  intros ev d.
  assert (∃ elapsed : Qc,
            (elapsed ≤ REQUEST_TIMEOUT)%Qc ∧
            (ev = HttpResponded elapsed 200 (Some (JsonObject (Some (Some [2; 4])))) ∨
             ([2; 4] = [] ∧ ev = HttpResponded elapsed 200 (Some (JsonObject None)))))
    as Hreply.
  { exists (Q2Qc (1 # 4)). split; [|left; reflexivity].
    apply (bool_decide_unpack _). vm_compute. exact I. }
  split; [exact Hreply|].
  exact (proj2 (proj2 (get_numbers_from_api_over_http EVEN d ev) [2; 4]) Hreply).
Defined.

(** A request over HTTP that brings no value under ["numbers"]: the request
    raised, the reply was late or had a status other than 200, the body was
    not JSON or not an object, or the object had no ["numbers"] key or a
    [null] under it. *)
Definition without_numbers (ev : http_event) : Prop :=
  match ev with
  | HttpRaised _ => True
  | HttpResponded elapsed status_code body =>
      (REQUEST_TIMEOUT < elapsed)%Qc ∨
      status_code ≠ 200 ∨
      body = None ∨
      body = Some JsonOther ∨
      body = Some (JsonObject None) ∨
      body = Some (JsonObject (Some None))
  end.

Lemma api_without_numbers (c : NumberType) (d : draw) (ev : http_event) :
  without_numbers ev →
  get_numbers_from_api_when false c d ev = Ok None ∨
  get_numbers_from_api_when false c d ev = Ok (Some []).
Proof.
  unfold get_numbers_from_api_when, api_request.
  destruct ev as [[]|elapsed status_code body]; [by left..|].
  intros Hev.
  destruct (decide (REQUEST_TIMEOUT < elapsed)%Qc) as [Hlate|Hintime]; [by left|].
  destruct (decide (status_code ≠ 200)) as [Hbad|Hgood]; [by left|].
  destruct Hev as [? | [? | [-> | [-> | [-> | ->]]]]]; try done; by (left + right).
Qed.

(** X15.  Over HTTP, a request whose fetch brought no value under
    ["numbers"] -- it raised, the reply was late or not 200, the body was no
    JSON object, or the key was absent or [null] -- gives the handler [None]
    or the empty list, and leaves every window of the store as it was. *)
Theorem serve_over_http_without_numbers (nw : store) (c : NumberType) (d : draw)
    (ev : http_event) :
  without_numbers ev →
  (get_numbers_from_api_when false c d ev = Ok None ∨
   get_numbers_from_api_when false c d ev = Ok (Some [])) ∧
  (serve_when false c d ev nw).2 = nw.
Proof.
  intros Hev. pose proof (api_without_numbers c d ev Hev) as Hfetched.
  split; [done|]. unfold serve_when.
  destruct (nw !! c) as [w|] eqn:Hc.
  - by rewrite (get_numbers_no_data nw c w _ Hc Hfetched).
  - by rewrite (get_numbers_missing _ _ _ Hc).
Qed.

Lemma serve_over_http_without_numbers_witness :
  let nw : store := <[EVEN := [4; 6; 8]]> number_windows in
  let ev : http_event :=
    HttpResponded (Q2Qc (3 # 4)) 200 (Some (JsonObject (Some (Some [8; 10])))) in
  let d : draw := mkDraw 1 [0%nat] in
  without_numbers ev ∧
  (get_numbers_from_api_when false EVEN d ev = Ok None ∨
   get_numbers_from_api_when false EVEN d ev = Ok (Some [])) ∧
  (serve_when false EVEN d ev nw).2 = nw.
Proof.
  intros nw ev d.
  assert (without_numbers ev) as Hev.
  { left. apply (bool_decide_unpack _). vm_compute. exact I. }
  split; [exact Hev|].
  exact (serve_over_http_without_numbers nw EVEN d ev Hev).
Defined.
